(** * The bar NPC registry of naev (src/npc.c)

    A shallow embedding of [npc.c]: the NPC records, the process-wide
    registry ([npc_array] and [npc_array_idgen]), the owned C strings and
    portrait textures, and the operations that add, remove, sort, clear,
    read and approach NPCs. *)

From Equations Require Import Equations.
From stdpp Require Import gmap strings list sorting.
From Stdlib Require Import ZArith Lia.

Open Scope Z_scope.

(** ** Machine integers *)

(** [unsigned int] is 32 bits wide; arithmetic on it wraps around. *)
Definition UINT_MAX : Z := 4294967295.
Definition uint (x : Z) : Z := x mod 4294967296.

(** ** Memory *)

(** Non-null addresses. A possibly-NULL pointer is an [option ptr]. *)
Definition ptr := positive.

(** Modelled from the spec: opengl.h is not among the sources. The image
    subsystem offers load-by-path, duplicate and release of portraits; a
    live texture object remembers how it was obtained. *)
Inductive glTexture :=
| TexImage (path : string)
| TexDup (src : ptr).

(** ** Missions *)

(** The part of [MissionData] the registry reads: [avail.priority]. *)
Record MissionData := mkMissionData {
  avail_priority : Z
}.

(** The part of [Mission] the registry reads. A [Mission] whose [data]
    pointer is NULL is an unused slot: slots are [option Mission], and a
    [Mission] value always carries its data. The strings [npc] and [desc]
    are held by their contents, [portrait] by its address. *)
Record Mission := mkMission {
  misn_id : Z;
  misn_data : MissionData;
  misn_npc : string;
  misn_desc : string;
  misn_portrait : ptr
}.

(** ** NPC records *)

Inductive NPCtype :=
| NPC_TYPE_NULL
| NPC_TYPE_GIVER
| NPC_TYPE_MISSION
| NPC_TYPE_EVENT.

Record NPCevtData := mkNPCevtData {
  evt_id : Z;
  evt_func : ptr
}.

Record NPCmisnData := mkNPCmisnData {
  m_misn : ptr;
  m_func : ptr
}.

(** The union [u] together with its tag [type]. *)
Inductive NPCunion :=
| u_null
| u_g (g : Mission)
| u_m (m : NPCmisnData)
| u_e (e : NPCevtData).

Record NPC_t := mkNPC {
  npc_id : Z;
  npc_priority : Z;
  npc_name : ptr;
  npc_portrait : ptr;
  npc_desc : ptr;
  npc_u : NPCunion
}.

Definition npc_type (npc : NPC_t) : NPCtype :=
  match npc_u npc with
  | u_null => NPC_TYPE_NULL
  | u_g _ => NPC_TYPE_GIVER
  | u_m _ => NPC_TYPE_MISSION
  | u_e _ => NPC_TYPE_EVENT
  end.

Definition set_npc_id (v : Z) (npc : NPC_t) : NPC_t :=
  mkNPC v (npc_priority npc) (npc_name npc) (npc_portrait npc)
        (npc_desc npc) (npc_u npc).

(** ** Calls into the other subsystems *)

Inductive Event :=
| EvAlert (msg : string)
| EvWarn (msg : string)
| EvMissionAccept (g : Mission)
| EvMissionCleanup (owner : Z)
| EvMisnRun (misn func : ptr)
| EvEventRun (evt : Z) (func : ptr).

(** ** Program state *)

(** [npc_array_idgen] and [npc_array] are the two statics of npc.c; the
    other fields are what the file reaches in the rest of the program:
    the [landed] flag, the player's mission slots, the missions that
    borrowed [Mission *] pointers refer to, the malloc'ed strings, the
    live textures, and the trace of calls made to other subsystems. *)
Record State := mkState {
  landed : bool;
  player_missions : nat → option Mission;
  mission_mem : ptr → Mission;
  heap : gmap ptr string;
  textures : gmap ptr glTexture;
  log : list Event;
  npc_array_idgen : Z;
  npc_array : option (list NPC_t)
}.

Definition set_landed (v : bool) (st : State) : State :=
  mkState v (player_missions st) (mission_mem st) (heap st) (textures st)
          (log st) (npc_array_idgen st) (npc_array st).
Definition set_player_missions (v : nat → option Mission) (st : State) : State :=
  mkState (landed st) v (mission_mem st) (heap st) (textures st)
          (log st) (npc_array_idgen st) (npc_array st).
Definition set_heap (v : gmap ptr string) (st : State) : State :=
  mkState (landed st) (player_missions st) (mission_mem st) v (textures st)
          (log st) (npc_array_idgen st) (npc_array st).
Definition set_textures (v : gmap ptr glTexture) (st : State) : State :=
  mkState (landed st) (player_missions st) (mission_mem st) (heap st) v
          (log st) (npc_array_idgen st) (npc_array st).
Definition set_log (v : list Event) (st : State) : State :=
  mkState (landed st) (player_missions st) (mission_mem st) (heap st)
          (textures st) v (npc_array_idgen st) (npc_array st).
Definition set_npc_array_idgen (v : Z) (st : State) : State :=
  mkState (landed st) (player_missions st) (mission_mem st) (heap st)
          (textures st) (log st) v (npc_array st).
Definition set_npc_array (v : option (list NPC_t)) (st : State) : State :=
  mkState (landed st) (player_missions st) (mission_mem st) (heap st)
          (textures st) (log st) (npc_array_idgen st) v.

Definition emit (e : Event) (st : State) : State :=
  set_log (log st ++ [e]) st.

(** *** libc: strdup and free *)

(** [strdup] returns a fresh block holding a copy of the string; the
    allocation is taken to succeed. *)
Definition strdup (s : string) (st : State) : ptr * State :=
  let p := fresh (dom (heap st)) in
  (p, set_heap (<[p := s]> (heap st)) st).

Definition free (p : ptr) (st : State) : State :=
  set_heap (delete p (heap st)) st.

(** *** Image subsystem *)

Definition gl_newImage (path : string) (st : State) : ptr * State :=
  let p := fresh (dom (textures st)) in
  (p, set_textures (<[p := TexImage path]> (textures st)) st).

Definition gl_dupTexture (t : ptr) (st : State) : ptr * State :=
  let p := fresh (dom (textures st)) in
  (p, set_textures (<[p := TexDup t]> (textures st)) st).

Definition gl_freeTexture (t : ptr) (st : State) : State :=
  set_textures (delete t (textures st)) st.

(** *** Dynamic arrays *)

(** Modelled from the spec: array.h is not among the sources. The
    collection is ordered; an add appends at the end, a removal takes the
    record out and keeps the others in place, clear empties the collection
    without releasing it, and the uninitialised (NULL) collection has no
    records. *)
Definition array_create : list NPC_t := [].
Definition array_grow (a : list NPC_t) (x : NPC_t) : list NPC_t := a ++ [x].
Definition array_erase (a : list NPC_t) (i : nat) : list NPC_t := delete i a.
Definition array_size (a : option (list NPC_t)) : Z :=
  match a with
  | None => 0
  | Some l => Z.of_nat (length l)
  end.

(** ** npc.c *)

(** [npc_add]: lines 85-106. *)
Definition npc_add (npc : NPC_t) (st : State) : Z * State :=
  if negb (landed st) then (0, st)
  else
    let a := match npc_array st with
             | None => array_create
             | Some a => a
             end in
    let id := uint (npc_array_idgen st + 1) in
    (id, set_npc_array (Some (array_grow a (set_npc_id id npc)))
           (set_npc_array_idgen id st)).

(** [npc_add_giver]: lines 112-125. The [id] of the local [npc] is not
    initialised in C; [npc_add] overwrites it. *)
Definition npc_add_giver (misn : Mission) (st : State) : Z * State :=
  let '(name, st) := strdup (misn_npc misn) st in
  let priority := avail_priority (misn_data misn) in
  let '(portrait, st) := gl_dupTexture (misn_portrait misn) st in
  let '(desc, st) := strdup (misn_desc misn) st in
  npc_add (mkNPC 0 priority name portrait desc (u_g misn)) st.

(** [npc_add_mission]: lines 131-146. *)
Definition npc_add_mission (misn : ptr) (func name : string) (priority : Z)
    (portrait desc : string) (st : State) : Z * State :=
  let '(name, st) := strdup name st in
  let '(portrait, st) := gl_newImage portrait st in
  let '(desc, st) := strdup desc st in
  let '(func, st) := strdup func st in
  npc_add (mkNPC 0 priority name portrait desc
                 (u_m (mkNPCmisnData misn func))) st.

(** [npc_add_event]: lines 152-167. *)
Definition npc_add_event (evt : Z) (func name : string) (priority : Z)
    (portrait desc : string) (st : State) : Z * State :=
  let '(name, st) := strdup name st in
  let '(portrait, st) := gl_newImage portrait st in
  let '(desc, st) := strdup desc st in
  let '(func, st) := strdup func st in
  npc_add (mkNPC 0 priority name portrait desc
                 (u_e (mkNPCevtData evt func))) st.

(** [npc_free]: lines 302-327. *)
Definition npc_free (npc : NPC_t) (st : State) : State :=
  let st := free (npc_name npc) st in
  let st := gl_freeTexture (npc_portrait npc) st in
  let st := free (npc_desc npc) st in
  match npc_u npc with
  | u_g _ => emit (EvMissionCleanup (npc_id npc)) st
  | u_m m => free (m_func m) st
  | u_e e => free (evt_func e) st
  | u_null => emit (EvWarn "Freeing NPC of invalid type.") st
  end.

(** [npc_rm]: lines 173-180. The pointer [npc] is the address of the
    record at index [i]. *)
Definition npc_rm (i : nat) (npc : NPC_t) (st : State) : Z * State :=
  let st := npc_free npc st in
  let st := match npc_array st with
            | None => st
            | Some a => set_npc_array (Some (array_erase a i)) st
            end in
  (0, st).

(** [npc_arrayGet]: lines 186-193. The loop over [i], started at index
    [i] with the records from there on; a found record is returned with
    its index. On the NULL collection [array_size] is 0 and the loop body
    never runs. *)
Fixpoint npc_arrayGet_loop (a : list NPC_t) (i : nat) (id : Z)
    : option (nat * NPC_t) :=
  match a with
  | [] => None
  | npc :: a' =>
      if npc_id npc =? id then Some (i, npc)
      else npc_arrayGet_loop a' (S i) id
  end.

Definition npc_arrayGet (id : Z) (st : State) : option (nat * NPC_t) :=
  match npc_array st with
  | None => None
  | Some a => npc_arrayGet_loop a 0 id
  end.

Definition NPCtype_eqb (a b : NPCtype) : bool :=
  match a, b with
  | NPC_TYPE_NULL, NPC_TYPE_NULL
  | NPC_TYPE_GIVER, NPC_TYPE_GIVER
  | NPC_TYPE_MISSION, NPC_TYPE_MISSION
  | NPC_TYPE_EVENT, NPC_TYPE_EVENT => true
  | _, _ => false
  end.

(** [npc_rm_event]: lines 199-218. *)
Definition npc_rm_event (id evt : Z) (st : State) : Z * State :=
  match npc_arrayGet id st with
  | None => (-1, st)
  | Some (i, npc) =>
      if negb (NPCtype_eqb (npc_type npc) NPC_TYPE_EVENT) then (-1, st)
      else
        match npc_u npc with
        | u_e e => if negb (evt_id e =? evt) then (-1, st)
                   else npc_rm i npc st
        | _ => (-1, st)
        end
  end.

(** [npc_rm_mission]: lines 224-243. Both [misn] and the stored pointer
    are dereferenced for their [id]. *)
Definition npc_rm_mission (id : Z) (misn : ptr) (st : State) : Z * State :=
  match npc_arrayGet id st with
  | None => (-1, st)
  | Some (i, npc) =>
      if negb (NPCtype_eqb (npc_type npc) NPC_TYPE_MISSION) then (-1, st)
      else
        match npc_u npc with
        | u_m m =>
            if negb (misn_id (mission_mem st misn)
                     =? misn_id (mission_mem st (m_misn m)))
            then (-1, st)
            else npc_rm i npc st
        | _ => (-1, st)
        end
  end.

(** [npc_compare]: lines 249-263. *)
Definition npc_compare (npc1 npc2 : NPC_t) : Z :=
  if npc_priority npc1 >? npc_priority npc2 then 1
  else if npc_priority npc1 <? npc_priority npc2 then -1
  else 0.

(** libc's [qsort]: sorts in ascending order of the comparison function;
    the order of elements that compare equal is not specified. Here: the
    first element is the pivot. *)
Equations? qsort {A : Type} (cmp : A → A → Z) (l : list A) : list A
    by wf (length l) lt :=
  qsort cmp [] := [];
  qsort cmp (p :: t) :=
    qsort cmp (List.filter (λ x, cmp x p <? 0) t)
    ++ p :: qsort cmp (List.filter (λ x, negb (cmp x p <? 0)) t).
Proof.
  all: simpl; apply Nat.lt_succ_r, List.filter_length_le.
Qed.

(** [npc_sort]: lines 269-273. *)
Definition npc_sort (st : State) : State :=
  match npc_array st with
  | None => st
  | Some a => set_npc_array (Some (qsort npc_compare a)) st
  end.

(** [npc_generate]: lines 279-296. [missions] is what [missions_genList]
    returned. The loop keeps the values [npc_add_giver] returns, which the
    C code drops, so that the ids given out can be observed. *)
Fixpoint npc_generate_loop (missions : list Mission) (st : State)
    : list Z * State :=
  match missions with
  | [] => ([], st)
  | m :: ms =>
      let '(id, st) := npc_add_giver m st in
      let '(ids, st) := npc_generate_loop ms st in
      (id :: ids, st)
  end.

Definition npc_generate (missions : list Mission) (st : State) : State :=
  npc_sort (snd (npc_generate_loop missions st)).

(** [npc_clear]: lines 333-347. *)
Definition npc_clear (st : State) : State :=
  match npc_array st with
  | None => st
  | Some a =>
      let st := fold_left (λ st npc, npc_free npc st) a st in
      set_npc_array (Some []) st
  end.

(** [npc_freeAll]: lines 353-362. *)
Definition npc_freeAll (st : State) : State :=
  set_npc_array None (npc_clear st).

(** [npc_getArraySize]: lines 368-374. *)
Definition npc_getArraySize (st : State) : Z :=
  match npc_array st with
  | None => 0
  | Some _ => array_size (npc_array st)
  end.

(** [npc_array[i]] for an index that passed the bounds check. *)
Definition npc_at (st : State) (i : Z) : option NPC_t :=
  match npc_array st with
  | None => None
  | Some a => a !! Z.to_nat i
  end.

(** [npc_getName], [npc_getTexture], [npc_getDesc]: lines 422-455.
    [None] is the NULL they return. *)
Definition npc_getName (i : Z) (st : State) : option ptr :=
  if (i <? 0) || (i >=? array_size (npc_array st)) then None
  else npc_name <$> npc_at st i.

Definition npc_getTexture (i : Z) (st : State) : option ptr :=
  if (i <? 0) || (i >=? array_size (npc_array st)) then None
  else npc_portrait <$> npc_at st i.

Definition npc_getDesc (i : Z) (st : State) : option ptr :=
  if (i <? 0) || (i >=? array_size (npc_array st)) then None
  else npc_desc <$> npc_at st i.

(** ** Approaching an NPC *)

Section Approach.

(** mission.h is not among the sources: the number of player mission
    slots and the outcome of [mission_accept] are parameters. Accepting a
    mission may fill a player slot; it is taken not to re-enter the
    registry. *)
Variable MISSION_MAX : nat.
Variable mission_accept :
  Mission → (nat → option Mission) → Z * (nat → option Mission).

(** The slot search of lines 470-472: the value of [i] when the loop is
    left, started at [i] with [n] iterations to go. *)
Fixpoint free_slot_loop (pm : nat → option Mission) (i n : nat) : nat :=
  match n with
  | O => i
  | S n' =>
      match pm i with
      | None => i
      | Some _ => free_slot_loop pm (S i) n'
      end
  end.

(** [npc_approach_giver]: lines 463-492. [npc] is the record at index
    [i], [g] its mission. *)
Definition npc_approach_giver (i : nat) (npc : NPC_t) (g : Mission)
    (st : State) : Z * State :=
  let slot := free_slot_loop (player_missions st) 0 MISSION_MAX in
  if (MISSION_MAX <=? slot)%nat then
    (-1, emit (EvAlert "You have too many active missions.") st)
  else
    let '(ret, pm) := mission_accept g (player_missions st) in
    let st := emit (EvMissionAccept g) (set_player_missions pm st) in
    if (ret =? 0) || (ret =? 2) || (ret =? -1) then
      let st := if ret =? -1 then emit (EvMissionCleanup (npc_id npc)) st
                else st in
      let st := npc_free npc st in
      let st := match npc_array st with
                | None => st
                | Some a => set_npc_array (Some (array_erase a i)) st
                end in
      (1, st)
    else (0, st).

(** [npc_approach]: lines 500-530. *)
Definition npc_approach (i : Z) (st : State) : Z * State :=
  if (i <? 0) || (i >=? array_size (npc_array st)) then (-1, st)
  else
    match npc_at st i with
    | None => (-1, st)
    | Some npc =>
        match npc_u npc with
        | u_g g => npc_approach_giver (Z.to_nat i) npc g st
        | u_m m => (0, emit (EvMisnRun (m_misn m) (m_func m)) st)
        | u_e e => (0, emit (EvEventRun (evt_id e) (evt_func e)) st)
        | u_null => (-1, emit (EvWarn "Unknown NPC type!") st)
        end
    end.

(** ** Runs of the module *)

(** What the rest of the program can do with the registry: land or take
    off, and call the entry points of npc.c. *)
Inductive Op :=
| OpLand (b : bool)
| OpAddMission (misn : ptr) (func name : string) (priority : Z)
               (portrait desc : string)
| OpAddEvent (evt : Z) (func name : string) (priority : Z)
             (portrait desc : string)
| OpRmEvent (id evt : Z)
| OpRmMission (id : Z) (misn : ptr)
| OpGenerate (missions : list Mission)
| OpClear
| OpFreeAll
| OpApproach (i : Z).

(** One operation; the list holds the values returned by the add calls
    it made. *)
Definition step (op : Op) (st : State) : list Z * State :=
  match op with
  | OpLand b => ([], set_landed b st)
  | OpAddMission misn func name priority portrait desc =>
      let '(id, st) := npc_add_mission misn func name priority portrait desc st in
      ([id], st)
  | OpAddEvent evt func name priority portrait desc =>
      let '(id, st) := npc_add_event evt func name priority portrait desc st in
      ([id], st)
  | OpRmEvent id evt => ([], snd (npc_rm_event id evt st))
  | OpRmMission id misn => ([], snd (npc_rm_mission id misn st))
  | OpGenerate missions =>
      (fst (npc_generate_loop missions st), npc_generate missions st)
  | OpClear => ([], npc_clear st)
  | OpFreeAll => ([], npc_freeAll st)
  | OpApproach i => ([], snd (npc_approach i st))
  end.

Fixpoint run (ops : list Op) (st : State) : list Z * State :=
  match ops with
  | [] => ([], st)
  | op :: ops =>
      let '(ids, st) := step op st in
      let '(ids', st) := run ops st in
      (ids ++ ids', st)
  end.

End Approach.

(** What an address holding no mission reads as. *)
Definition mission_zero : Mission :=
  mkMission 0 (mkMissionData 0) EmptyString EmptyString 1%positive.

(** The state at process start: nothing allocated, not landed, the
    generator at 0, [npc_array] NULL. *)
Definition init_state : State :=
  mkState false (λ _, None) (λ _, mission_zero) ∅ ∅ [] 0 None.

(** The ids handed out by successful adds: 0 is the invalid id. *)
Definition issued (ids : list Z) : list Z :=
  List.filter (λ id, negb (id =? 0)) ids.

(** The records of the registry, none when [npc_array] is NULL. *)
Definition records (st : State) : list NPC_t := default [] (npc_array st).

(** The state once [npc] is freed and taken out of the collection, which
    is left holding [rest]; [func] is the callback name the record owns. *)
Definition without_npc (npc : NPC_t) (func : ptr) (rest : list NPC_t)
    (st : State) : State :=
  set_npc_array (Some rest)
    (set_textures (delete (npc_portrait npc) (textures st))
       (set_heap (delete func (delete (npc_desc npc)
                    (delete (npc_name npc) (heap st)))) st)).


(** ** Sample states *)

(** Landed at process start. *)
Definition landed_state : State := set_landed true init_state.

(** One event NPC, for event 7 with callback "foo", added after landing. *)
Definition event_state : State :=
  snd (npc_add_event 7 "foo" "Trader" 2 "trader.png" "A trader." landed_state).

Definition event_npc : NPC_t :=
  mkNPC 1 2 1%positive 1%positive 2%positive
        (u_e (mkNPCevtData 7 3%positive)).

(** A bar mission with the given priority. *)
Definition bar_mission (priority : Z) : Mission :=
  mkMission 7 (mkMissionData priority) "Bob" "A man at the bar." 9%positive.

(** The registry as at process start (generator 0, [npc_array] NULL) in
    the surroundings of [st]. *)
Definition fresh_registry (st : State) : State :=
  set_npc_array None (set_npc_array_idgen 0 st).

(** One mission giver at the bar, every player slot free. *)
Definition giver_state : State :=
  snd (npc_add_giver (bar_mission 5) landed_state).

Definition giver_npc : NPC_t :=
  mkNPC 1 5 1%positive 1%positive 2%positive (u_g (bar_mission 5)).

(** The same with every player slot taken. *)
Definition busy_state : State :=
  set_player_missions (λ _, Some (bar_mission 0)) giver_state.

(** Outcomes of [mission_accept] that leave the player's slots alone. *)
Definition accept_returning (ret : Z)
    : Mission → (nat → option Mission) → Z * (nat → option Mission) :=
  λ _ pm, (ret, pm).

(** ** The id generator along a run *)

(** [Issued g ids g']: with the generator at [g], a series of add calls
    returned [ids], in this order, and left the generator at [g']. A call
    refused for want of landing returns 0 and leaves the generator; a
    call carried out increments it, wrapping at 32 bits, and returns its
    new value. *)
Inductive Issued : Z → list Z → Z → Prop :=
| Issued_nil g : Issued g [] g
| Issued_refused g ids g' :
    Issued g ids g' → Issued g (0 :: ids) g'
| Issued_added g ids g' :
    Issued (uint (g + 1)) ids g' → Issued g (uint (g + 1) :: ids) g'.

(** Adding an event NPC, over and over. *)
Definition add_op : Op :=
  OpAddEvent 7 "foo" "Trader" 2 "trader.png" "A trader.".

(** Land, then add until the generator holds [UINT_MAX]. *)
Definition exhausting_ops : list Op :=
  OpLand true :: repeat add_op (Z.to_nat UINT_MAX).

(** Two more adds after that. *)
Definition wrap_ops : list Op := exhausting_ops ++ [add_op; add_op].

(** ** The bulk accessors *)

(** [strdup] of a string that lives in the heap. Reading a block that is
    not allocated has no defined result: [None]. *)
Definition strdup_at (p : ptr) (st : State) : option (ptr * State) :=
  match heap st !! p with
  | Some s => Some (strdup s st)
  | None => None
  end.

(** The loop of lines 391-392 over the records it visits; the list holds
    what was stored into [names[0]], [names[1]], ... *)
Fixpoint npc_getNameArray_loop (a : list NPC_t) (st : State)
    : option (list ptr * State) :=
  match a with
  | [] => Some ([], st)
  | npc :: a' =>
      match strdup_at (npc_name npc) st with
      | None => None
      | Some (p, st) =>
          match npc_getNameArray_loop a' st with
          | None => None
          | Some (ps, st) => Some (p :: ps, st)
          end
      end
  end.

(** [npc_getNameArray]: lines 383-395. The loop runs for [i] from 0 while
    [i < MIN(n, array_size)]; the value returned is the final [i]. *)
Definition npc_getNameArray (n : Z) (st : State)
    : option (Z * list ptr * State) :=
  match npc_array st with
  | None => Some (0, [], st)
  | Some a =>
      let count := Z.to_nat (Z.min n (array_size (npc_array st))) in
      match npc_getNameArray_loop (take count a) st with
      | None => None
      | Some (names, st) => Some (Z.of_nat count, names, st)
      end
  end.

(** [npc_getTextureArray]: lines 404-416. The list holds what was stored
    into [tex[0]], [tex[1]], ...: the records' own portraits. *)
Definition npc_getTextureArray (n : Z) (st : State) : Z * list ptr :=
  match npc_array st with
  | None => (0, [])
  | Some a =>
      let count := Z.to_nat (Z.min n (array_size (npc_array st))) in
      (Z.of_nat count, npc_portrait <$> take count a)
  end.

(** ** Ownership *)

(** The strings a record owns: what [npc_free] hands to [free]. *)
Definition owned_strings (npc : NPC_t) : list ptr :=
  npc_name npc :: npc_desc npc ::
  match npc_u npc with
  | u_m m => [m_func m]
  | u_e e => [evt_func e]
  | _ => []
  end.

Definition registry_strings (st : State) : list ptr :=
  records st ≫= owned_strings.

Definition registry_textures (st : State) : list ptr :=
  npc_portrait <$> records st.

(** Every string and portrait of every record is allocated, and no two
    records (nor two fields of one record) share one. *)
Definition registry_owns (st : State) : Prop :=
  NoDup (registry_strings st)
  ∧ (∀ p, p ∈ registry_strings st → is_Some (heap st !! p))
  ∧ NoDup (registry_textures st)
  ∧ (∀ t, t ∈ registry_textures st → is_Some (textures st !! t)).

(** Is the operation one that adds records? *)
Definition is_add (op : Op) : bool :=
  match op with
  | OpAddMission _ _ _ _ _ _ | OpAddEvent _ _ _ _ _ _ | OpGenerate _ => true
  | _ => false
  end.

(** Along the run, is every add made while landed? *)
Fixpoint adds_while_landed
    (MISSION_MAX : nat)
    (mission_accept :
       Mission → (nat → option Mission) → Z * (nat → option Mission))
    (ops : list Op) (st : State) : bool :=
  match ops with
  | [] => true
  | op :: ops =>
      (negb (is_add op) || landed st)
      && adds_while_landed MISSION_MAX mission_accept ops
           (snd (step MISSION_MAX mission_accept op st))
  end.

(** *** What an operation does to the registry's resources *)

(** The records, the allocated strings, the live textures and the
    generator. *)
Record Summary := mkSummary {
  s_records : list NPC_t;
  s_strings : gset ptr;
  s_textures : gset ptr;
  s_idgen : Z
}.

Definition summary (st : State) : Summary :=
  mkSummary (records st) (dom (heap st)) (dom (textures st))
            (npc_array_idgen st).

(** [Move leaky n s s']: a series of elementary changes with [n] records
    added; allocations that no record takes over occur only when [leaky]. *)
Inductive Move : bool → nat → Summary → Summary → Prop :=
| M_refl leaky s : Move leaky 0 s s
| M_leak s s' :
    s_records s' = s_records s → s_idgen s' = s_idgen s →
    s_strings s ⊆ s_strings s' → s_textures s ⊆ s_textures s' →
    Move true 0 s s'
| M_add leaky s s' r :
    s_records s' = s_records s ++ [r] →
    npc_id r = uint (s_idgen s + 1) → s_idgen s' = uint (s_idgen s + 1) →
    NoDup (owned_strings r) →
    (∀ p, p ∈ owned_strings r → p ∉ s_strings s) →
    s_strings s' = list_to_set (owned_strings r) ∪ s_strings s →
    npc_portrait r ∉ s_textures s →
    s_textures s' = {[npc_portrait r]} ∪ s_textures s →
    Move leaky 1 s s'
| M_del leaky s s' l1 r l2 :
    s_records s = l1 ++ r :: l2 → s_records s' = l1 ++ l2 →
    s_idgen s' = s_idgen s →
    s_strings s' = s_strings s ∖ list_to_set (owned_strings r) →
    s_textures s' = s_textures s ∖ {[npc_portrait r]} →
    Move leaky 0 s s'
| M_perm leaky s s' :
    s_records s' ≡ₚ s_records s → s_idgen s' = s_idgen s →
    s_strings s' = s_strings s → s_textures s' = s_textures s →
    Move leaky 0 s s'
| M_trans leaky n1 n2 s1 s2 s3 :
    Move leaky n1 s1 s2 → Move leaky n2 s2 s3 →
    Move leaky (n1 + n2) s1 s3.

Definition s_owned_strings (s : Summary) : list ptr :=
  s_records s ≫= owned_strings.

Definition s_owned_textures (s : Summary) : list ptr :=
  npc_portrait <$> s_records s.

(** The records' strings and portraits are allocated and all distinct. *)
Definition owns (s : Summary) : Prop :=
  NoDup (s_owned_strings s)
  ∧ (∀ p, p ∈ s_owned_strings s → p ∈ s_strings s)
  ∧ NoDup (s_owned_textures s)
  ∧ (∀ t, t ∈ s_owned_textures s → t ∈ s_textures s).

(** Moreover nothing else is allocated. *)
Definition owns_all (s : Summary) : Prop :=
  owns s
  ∧ (∀ p, p ∈ s_strings s → p ∈ s_owned_strings s)
  ∧ (∀ t, t ∈ s_textures s → t ∈ s_owned_textures s).

(** The records' ids are distinct, non-zero and at most the generator. *)
Definition ids_distinct (s : Summary) : Prop :=
  NoDup (npc_id <$> s_records s)
  ∧ Forall (λ r, 0 < npc_id r ≤ s_idgen s) (s_records s).

(** A run that lands, adds an event NPC and a mission NPC, generates two
    givers, removes the event NPC and approaches the first record. *)
Definition sample_ops : list Op :=
  [OpLand true; add_op;
   OpAddMission 5%positive "accept" "Agent" 3 "agent.png" "An agent.";
   OpGenerate [bar_mission 5; bar_mission 1];
   OpRmEvent 1 7; OpApproach 0].
(** * Properties *)

(** ** Setters and frees leave the other fields alone *)

Lemma npc_free_array npc st : npc_array (npc_free npc st) = npc_array st.
Proof. unfold npc_free. by destruct (npc_u npc). Qed.

Lemma npc_free_idgen npc st :
  npc_array_idgen (npc_free npc st) = npc_array_idgen st.
Proof. unfold npc_free. by destruct (npc_u npc). Qed.

Lemma npc_free_landed npc st : landed (npc_free npc st) = landed st.
Proof. unfold npc_free. by destruct (npc_u npc). Qed.

(** ** Looking a record up by id *)

Lemma npc_arrayGet_loop_None a i id :
  Forall (λ n, npc_id n ≠ id) a → npc_arrayGet_loop a i id = None.
Proof.
  intros H. revert i. induction H as [|n a Hn _ IH]; intros i; simpl.
  - done.
  - destruct (Z.eqb_spec (npc_id n) id); [done | apply IH].
Qed.

Lemma npc_arrayGet_loop_Some l1 npc l2 i id :
  Forall (λ n, npc_id n ≠ id) l1 → npc_id npc = id →
  npc_arrayGet_loop (l1 ++ npc :: l2) i id = Some ((i + length l1)%nat, npc).
Proof.
  intros H Hid. revert i. induction H as [|n a Hn _ IH]; intros i; simpl.
  - rewrite Hid, Z.eqb_refl. do 2 f_equal. lia.
  - destruct (Z.eqb_spec (npc_id n) id); [done |].
    rewrite IH. do 2 f_equal. lia.
Qed.

Lemma npc_arrayGet_loop_inv a i id j npc :
  npc_arrayGet_loop a i id = Some (j, npc) →
  ∃ l1 l2, a = l1 ++ npc :: l2 ∧ j = (i + length l1)%nat
           ∧ Forall (λ n, npc_id n ≠ id) l1 ∧ npc_id npc = id.
Proof.
  revert i. induction a as [|n a IH]; intros i; simpl; [done |].
  destruct (Z.eqb_spec (npc_id n) id) as [Heq | Hne].
  - intros [= <- <-]. exists [], a. repeat split; simpl; auto with lia.
  - intros (l1 & l2 & -> & -> & Hl1 & Hid)%IH.
    exists (n :: l1), l2. repeat split; simpl; auto with lia.
Qed.

Lemma array_erase_middle (l1 l2 : list NPC_t) npc :
  array_erase (l1 ++ npc :: l2) (length l1) = l1 ++ l2.
Proof. apply delete_middle. Qed.

(** ** Removal by event and by mission *)

Lemma npc_rm_event_found l1 npc l2 e id evt st :
  npc_array st = Some (l1 ++ npc :: l2) →
  Forall (λ n, npc_id n ≠ id) l1 → npc_id npc = id →
  npc_u npc = u_e e →
  npc_rm_event id evt st =
    if evt_id e =? evt then (0, without_npc npc (evt_func e) (l1 ++ l2) st)
    else (-1, st).
Proof.
  intros Ha Hl1 Hid Hu. unfold npc_rm_event, npc_arrayGet.
  rewrite Ha, (npc_arrayGet_loop_Some _ _ _ _ _ Hl1 Hid).
  unfold npc_type. rewrite Hu. simpl.
  destruct (evt_id e =? evt); simpl; [| done].
  unfold npc_rm. rewrite npc_free_array, Ha, array_erase_middle.
  unfold npc_free. rewrite Hu. by destruct st.
Qed.

Lemma npc_rm_mission_found l1 npc l2 m id misn st :
  npc_array st = Some (l1 ++ npc :: l2) →
  Forall (λ n, npc_id n ≠ id) l1 → npc_id npc = id →
  npc_u npc = u_m m →
  npc_rm_mission id misn st =
    if misn_id (mission_mem st misn) =? misn_id (mission_mem st (m_misn m))
    then (0, without_npc npc (m_func m) (l1 ++ l2) st)
    else (-1, st).
Proof.
  intros Ha Hl1 Hid Hu. unfold npc_rm_mission, npc_arrayGet.
  rewrite Ha, (npc_arrayGet_loop_Some _ _ _ _ _ Hl1 Hid).
  unfold npc_type. rewrite Hu. simpl.
  destruct (_ =? _); simpl; [| done].
  unfold npc_rm. rewrite npc_free_array, Ha, array_erase_middle.
  unfold npc_free. rewrite Hu. by destruct st.
Qed.

Lemma npc_rm_not_found id st :
  Forall (λ n, npc_id n ≠ id) (records st) → npc_arrayGet id st = None.
Proof.
  unfold records, npc_arrayGet. destruct (npc_array st); simpl; [| done].
  apply npc_arrayGet_loop_None.
Qed.

(** C1. [npc_rm_event] and [npc_rm_mission] return -1 and leave the whole
    state as it was when no record has the id, when the first record with
    the id is of another kind, or when its event id (the id of its
    mission) is not the one given; otherwise they return 0, and the state
    is the one where exactly that record was freed (name, description,
    callback name, portrait) and taken out of the collection. *)
Theorem npc_rm_checked (id : Z) (st : State) :
  (Forall (λ n, npc_id n ≠ id) (records st) →
     (∀ evt, npc_rm_event id evt st = (-1, st))
     ∧ (∀ misn, npc_rm_mission id misn st = (-1, st)))
  ∧ (∀ l1 npc l2,
       npc_array st = Some (l1 ++ npc :: l2) →
       Forall (λ n, npc_id n ≠ id) l1 → npc_id npc = id →
       (∀ evt,
          (npc_type npc ≠ NPC_TYPE_EVENT →
             npc_rm_event id evt st = (-1, st))
          ∧ (∀ e, npc_u npc = u_e e → evt_id e ≠ evt →
               npc_rm_event id evt st = (-1, st))
          ∧ (∀ e, npc_u npc = u_e e → evt_id e = evt →
               npc_rm_event id evt st
               = (0, without_npc npc (evt_func e) (l1 ++ l2) st)))
       ∧ (∀ misn,
            (npc_type npc ≠ NPC_TYPE_MISSION →
               npc_rm_mission id misn st = (-1, st))
            ∧ (∀ m, npc_u npc = u_m m →
                 misn_id (mission_mem st misn)
                 ≠ misn_id (mission_mem st (m_misn m)) →
                 npc_rm_mission id misn st = (-1, st))
            ∧ (∀ m, npc_u npc = u_m m →
                 misn_id (mission_mem st misn)
                 = misn_id (mission_mem st (m_misn m)) →
                 npc_rm_mission id misn st
                 = (0, without_npc npc (m_func m) (l1 ++ l2) st)))).
Proof.
  split.
  - intros Hnone%npc_rm_not_found.
    unfold npc_rm_event, npc_rm_mission. by rewrite Hnone.
  - intros l1 npc l2 Ha Hl1 Hid. split.
    + intros evt. repeat split.
      * intros Hty. unfold npc_rm_event, npc_arrayGet.
        rewrite Ha, (npc_arrayGet_loop_Some _ _ _ _ _ Hl1 Hid).
        unfold npc_type in *. by destruct (npc_u npc).
      * intros e Hu Hne.
        rewrite (npc_rm_event_found _ _ _ _ _ _ _ Ha Hl1 Hid Hu).
        by destruct (Z.eqb_spec (evt_id e) evt).
      * intros e Hu Heq.
        rewrite (npc_rm_event_found _ _ _ _ _ _ _ Ha Hl1 Hid Hu).
        by destruct (Z.eqb_spec (evt_id e) evt).
    + intros misn. repeat split.
      * intros Hty. unfold npc_rm_mission, npc_arrayGet.
        rewrite Ha, (npc_arrayGet_loop_Some _ _ _ _ _ Hl1 Hid).
        unfold npc_type in *. by destruct (npc_u npc).
      * intros m Hu Hne.
        rewrite (npc_rm_mission_found _ _ _ _ _ _ _ Ha Hl1 Hid Hu).
        by rewrite (proj2 (Z.eqb_neq _ _) Hne).
      * intros m Hu Heq.
        rewrite (npc_rm_mission_found _ _ _ _ _ _ _ Ha Hl1 Hid Hu).
        by rewrite (proj2 (Z.eqb_eq _ _) Heq).
Qed.

Lemma npc_rm_checked_witness :
  npc_array event_state = Some [event_npc]
  ∧ npc_rm_event 1 8 event_state = (-1, event_state)
  ∧ npc_rm_event 1 7 event_state
    = (0, without_npc event_npc 3%positive [] event_state)
  ∧ npc_rm_mission 1 5%positive event_state = (-1, event_state)
  ∧ npc_rm_event 2 7 event_state = (-1, event_state).
Proof.
  assert (Ha : npc_array event_state = Some ([] ++ event_npc :: []))
    by (vm_compute; reflexivity).
  destruct (npc_rm_checked 1 event_state) as [_ Hfound].
  destruct (Hfound [] event_npc [] Ha (Forall_nil_2 _) eq_refl) as [Hevt Hmisn].
  destruct (npc_rm_checked 2 event_state) as [Hnone _].
  split_and!.
  - exact Ha.
  - apply (proj1 (proj2 (Hevt 8)) (mkNPCevtData 7 3%positive) eq_refl).
    simpl. lia.
  - apply (proj2 (proj2 (Hevt 7)) (mkNPCevtData 7 3%positive) eq_refl).
    reflexivity.
  - apply (proj1 (Hmisn 5%positive)). discriminate.
  - apply Hnone. vm_compute. repeat constructor. lia.
Defined.





(** ** Sorting *)

Section Qsort.
Context {A : Type} (cmp : A → A → Z).

Lemma filter_split_Permutation (f : A → bool) (l : list A) :
  List.filter f l ++ List.filter (λ x, negb (f x)) l ≡ₚ l.
Proof.
  induction l as [|x l IH]; simpl; [done |].
  destruct (f x); simpl.
  - by rewrite IH.
  - by rewrite <- Permutation_middle, IH.
Qed.

Lemma qsort_Permutation (l : list A) : qsort cmp l ≡ₚ l.
Proof.
  funelim (qsort cmp l); simp qsort; [done |].
  rewrite <- Permutation_middle.
  match goal with
  | IH1 : qsort _ (List.filter ?f _) ≡ₚ _, IH2 : qsort _ _ ≡ₚ _ |- _ =>
      rewrite IH1, IH2
  end.
  by rewrite filter_split_Permutation.
Qed.

(** The comparison orders by a key, as [npc_compare] does by priority. *)
Context (key : A → Z).
Hypothesis cmp_key : ∀ x y, cmp x y < 0 ↔ key x < key y.

Lemma qsort_StronglySorted (l : list A) :
  StronglySorted (λ a b, key a ≤ key b) (qsort cmp l).
Proof.
  funelim (qsort cmp l); simp qsort; [constructor |].
  apply StronglySorted_app. split_and!.
  - intros x1 x2 Hx1 Hx2.
    rewrite qsort_Permutation in Hx1.
    apply list_elem_of_In, List.filter_In in Hx1 as [_ Hx1].
    apply Z.ltb_lt, cmp_key in Hx1.
    apply elem_of_cons in Hx2 as [-> | Hx2]; [lia |].
    rewrite qsort_Permutation in Hx2.
    apply list_elem_of_In, List.filter_In in Hx2 as [_ Hx2].
    apply negb_true_iff, Z.ltb_ge in Hx2.
    assert (¬ key x2 < key p) by (rewrite <- cmp_key; lia). lia.
  - done.
  - apply StronglySorted_cons. split; [| done].
    apply Forall_forall. intros x Hx.
    rewrite qsort_Permutation in Hx.
    apply list_elem_of_In, List.filter_In in Hx as [_ Hx].
    apply negb_true_iff, Z.ltb_ge in Hx.
    assert (¬ key x < key p) by (rewrite <- cmp_key; lia). lia.
Qed.
End Qsort.

Lemma npc_compare_priority npc1 npc2 :
  npc_compare npc1 npc2 < 0 ↔ npc_priority npc1 < npc_priority npc2.
Proof.
  unfold npc_compare.
  destruct (Z.gtb_spec (npc_priority npc1) (npc_priority npc2));
  destruct (Z.ltb_spec (npc_priority npc1) (npc_priority npc2)); lia.
Qed.

(** ** Adding records *)

Lemma npc_add_not_landed npc st :
  landed st = false → npc_add npc st = (0, st).
Proof. intros H. unfold npc_add. by rewrite H. Qed.

Lemma npc_add_landed npc st :
  landed st = true →
  npc_add npc st =
    (uint (npc_array_idgen st + 1),
     set_npc_array
       (Some (records st ++ [set_npc_id (uint (npc_array_idgen st + 1)) npc]))
       (set_npc_array_idgen (uint (npc_array_idgen st + 1)) st)).
Proof.
  intros H. unfold npc_add, records, array_grow, array_create.
  rewrite H. simpl. by destruct (npc_array st).
Qed.

Lemma uint_succ g : 0 ≤ g < UINT_MAX → uint (g + 1) = g + 1.
Proof. unfold uint, UINT_MAX. intros H. apply Z.mod_small. lia. Qed.

(** C6. Not landed, [npc_add_giver] returns 0 and the collection is the
    one it was. Landed, it returns the next value of the generator and
    appends one giver record carrying that id, the mission's priority, a
    by-value copy of the mission, and freshly allocated copies of the
    mission's npc name, description and portrait. *)
Theorem npc_add_giver_spec (misn : Mission) (st : State) :
  (landed st = false →
     fst (npc_add_giver misn st) = 0
     ∧ npc_array (snd (npc_add_giver misn st)) = npc_array st)
  ∧ (landed st = true →
     ∃ name portrait desc,
       let id := uint (npc_array_idgen st + 1) in
       let st' := snd (npc_add_giver misn st) in
       fst (npc_add_giver misn st) = id
       ∧ npc_array_idgen st' = id
       ∧ (0 ≤ npc_array_idgen st < UINT_MAX → id = npc_array_idgen st + 1)
       ∧ npc_array st'
         = Some (records st
                 ++ [mkNPC id (avail_priority (misn_data misn))
                           name portrait desc (u_g misn)])
       ∧ heap st !! name = None ∧ heap st !! desc = None ∧ name ≠ desc
       ∧ heap st'
         = <[desc := misn_desc misn]> (<[name := misn_npc misn]> (heap st))
       ∧ textures st !! portrait = None
       ∧ textures st'
         = <[portrait := TexDup (misn_portrait misn)]> (textures st)).
Proof.
  split; intros Hl.
  - unfold npc_add_giver, strdup, gl_dupTexture.
    rewrite npc_add_not_landed by done. done.
  - unfold npc_add_giver, strdup, gl_dupTexture.
    rewrite npc_add_landed by done.
    set (name := fresh (dom (heap st))).
    set (portrait := fresh (dom (textures st))).
    set (desc := fresh (dom (<[name := misn_npc misn]> (heap st)))).
    exists name, portrait, desc. simpl.
    assert (Hname : heap st !! name = None).
    { apply (not_elem_of_dom (D:=gset ptr)). apply is_fresh. }
    assert (Hd : desc ∉ dom (<[name := misn_npc misn]> (heap st)))
      by apply is_fresh.
    rewrite dom_insert_L, not_elem_of_union, not_elem_of_singleton in Hd.
    destruct Hd as [Hne Hd].
    split_and!; try done.
    + apply uint_succ.
    + by apply (not_elem_of_dom (D:=gset ptr)).
    + apply (not_elem_of_dom (D:=gset ptr)), is_fresh.
Qed.

Lemma npc_add_giver_spec_witness :
  (fst (npc_add_giver (bar_mission 5) init_state) = 0
   ∧ npc_array (snd (npc_add_giver (bar_mission 5) init_state)) = None)
  ∧ fst (npc_add_giver (bar_mission 5) landed_state) = 1
  ∧ npc_array (snd (npc_add_giver (bar_mission 5) landed_state))
    = Some [mkNPC 1 5 1%positive 1%positive 2%positive (u_g (bar_mission 5))].
Proof.
  split.
  - apply (proj1 (npc_add_giver_spec (bar_mission 5) init_state)).
    reflexivity.
  - destruct (proj2 (npc_add_giver_spec (bar_mission 5) landed_state) eq_refl)
      as (name & portrait & desc & Hid & _ & _ & Ha & _).
    split; [exact Hid |]. vm_compute. reflexivity.
Defined.

Lemma StronglySorted_adjacent {A} (R : relation A) (l : list A) i a b :
  StronglySorted R l → l !! i = Some a → l !! S i = Some b → R a b.
Proof.
  intros Hs. revert i. induction Hs as [|x l Hs IH Hx]; intros i; [done |].
  destruct i as [|i]; simpl.
  - intros [= ->] Hb. apply list_elem_of_lookup_2 in Hb.
    by eapply Forall_forall in Hx.
  - apply IH.
Qed.

Lemma npc_sort_sorted st :
  StronglySorted (λ a b, npc_priority a ≤ npc_priority b)
                 (records (npc_sort st)).
Proof.
  unfold npc_sort, records. destruct (npc_array st) as [a |] eqn:Ha; simpl.
  - apply qsort_StronglySorted, npc_compare_priority.
  - rewrite Ha. constructor.
Qed.

Lemma npc_sort_Permutation st : records (npc_sort st) ≡ₚ records st.
Proof.
  unfold npc_sort, records. destruct (npc_array st) as [a |] eqn:Ha; simpl.
  - apply qsort_Permutation.
  - by rewrite Ha.
Qed.

Lemma npc_add_giver_records m st :
  landed st = true →
  ∃ r, records (snd (npc_add_giver m st)) = records st ++ [r]
       ∧ npc_priority r = avail_priority (misn_data m)
       ∧ landed (snd (npc_add_giver m st)) = true.
Proof.
  intros Hl. unfold npc_add_giver, strdup, gl_dupTexture.
  rewrite npc_add_landed by done. simpl. eexists. split_and!; done.
Qed.

Lemma npc_generate_loop_priorities ms st :
  landed st = true →
  npc_priority <$> records (snd (npc_generate_loop ms st))
  = (npc_priority <$> records st)
    ++ ((λ m, avail_priority (misn_data m)) <$> ms).
Proof.
  revert st. induction ms as [|m ms IH]; intros st Hl; simpl.
  - by rewrite app_nil_r.
  - destruct (npc_add_giver_records m st Hl) as (r & Hr & Hp & Hl').
    destruct (npc_add_giver m st) as [id st1]. simpl in *.
    specialize (IH st1 Hl').
    destruct (npc_generate_loop ms st1) as [ids st2]. simpl in *.
    rewrite IH, Hr, fmap_app, <- app_assoc. simpl. by rewrite Hp.
Qed.

(** C2. After [npc_generate] every two adjacent records of the
    collection are in ascending order of priority; and when the registry
    is empty and the missions generated have priorities 5, 1, 3, the
    records end up with priorities 1, 3, 5. *)
Theorem npc_generate_sorted (missions : list Mission) (st : State) :
  (∀ i a b,
     records (npc_generate missions st) !! i = Some a →
     records (npc_generate missions st) !! S i = Some b →
     npc_priority a ≤ npc_priority b)
  ∧ (landed st = true → records st = [] →
     (λ m, avail_priority (misn_data m)) <$> missions = [5; 1; 3] →
     npc_priority <$> records (npc_generate missions st) = [1; 3; 5]).
Proof.
  split.
  - intros i a b.
    apply (StronglySorted_adjacent (λ a b, npc_priority a ≤ npc_priority b)),
          npc_sort_sorted.
  - intros Hl Hempty Hprio. unfold npc_generate.
    apply (StronglySorted_unique Z.le).
    + eapply StronglySorted_fmap, npc_sort_sorted. done.
    + repeat constructor; lia.
    + rewrite npc_sort_Permutation, npc_generate_loop_priorities by done.
      rewrite Hempty, Hprio. simpl.
      rewrite (Permutation_swap 1 5 [3]). apply perm_skip, Permutation_swap.
Qed.

Lemma npc_generate_sorted_witness :
  npc_priority
    <$> records (npc_generate [bar_mission 5; bar_mission 1; bar_mission 3]
                              landed_state)
  = [1; 3; 5].
Proof.
  apply (npc_generate_sorted [bar_mission 5; bar_mission 1; bar_mission 3]
           landed_state); reflexivity.
Defined.

(** ** Bounds-checked accessors *)

Lemma array_size_getArraySize st :
  array_size (npc_array st) = npc_getArraySize st.
Proof. unfold npc_getArraySize. by destruct (npc_array st). Qed.

Lemma bounds_check_out i st :
  i < 0 ∨ npc_getArraySize st ≤ i →
  (i <? 0) || (i >=? array_size (npc_array st)) = true.
Proof.
  rewrite array_size_getArraySize, orb_true_iff, Z.ltb_lt, Z.geb_le. tauto.
Qed.

Lemma bounds_check_in i st :
  0 ≤ i < npc_getArraySize st →
  (i <? 0) || (i >=? array_size (npc_array st)) = false
  ∧ ∃ npc, records st !! Z.to_nat i = Some npc ∧ npc_at st i = Some npc.
Proof.
  intros Hi. split.
  - apply not_true_iff_false. intros H.
    rewrite array_size_getArraySize, orb_true_iff, Z.ltb_lt, Z.geb_le in H.
    lia.
  - unfold npc_getArraySize, npc_at, records in *.
    destruct (npc_array st) as [a |]; simpl in *; [| lia].
    destruct (lookup_lt_is_Some_2 a (Z.to_nat i)) as [npc Hnpc]; [lia |].
    by exists npc.
Qed.

(** C8. For an index outside [0, size), [npc_getName], [npc_getTexture]
    and [npc_getDesc] return NULL, in particular for -1 and for the size
    itself; for an index inside, they return the name, the portrait and
    the description of the record at that index. *)
Theorem npc_get_bounds (i : Z) (st : State) :
  (i < 0 ∨ npc_getArraySize st ≤ i →
     npc_getName i st = None ∧ npc_getTexture i st = None
     ∧ npc_getDesc i st = None)
  ∧ (npc_getName (-1) st = None ∧ npc_getTexture (-1) st = None
     ∧ npc_getDesc (-1) st = None)
  ∧ (npc_getName (npc_getArraySize st) st = None
     ∧ npc_getTexture (npc_getArraySize st) st = None
     ∧ npc_getDesc (npc_getArraySize st) st = None)
  ∧ (0 ≤ i < npc_getArraySize st →
     ∃ npc, records st !! Z.to_nat i = Some npc
            ∧ npc_getName i st = Some (npc_name npc)
            ∧ npc_getTexture i st = Some (npc_portrait npc)
            ∧ npc_getDesc i st = Some (npc_desc npc)).
Proof.
  assert (Hout : ∀ j, j < 0 ∨ npc_getArraySize st ≤ j →
            npc_getName j st = None ∧ npc_getTexture j st = None
            ∧ npc_getDesc j st = None).
  { intros j Hj%bounds_check_out.
    unfold npc_getName, npc_getTexture, npc_getDesc. by rewrite Hj. }
  split; [| split; [| split]].
  - apply Hout.
  - apply Hout. lia.
  - apply Hout. lia.
  - intros (Hin & npc & Hrec & Hat)%bounds_check_in. exists npc.
    unfold npc_getName, npc_getTexture, npc_getDesc.
    by rewrite Hin, Hat.
Qed.

Lemma npc_get_bounds_witness :
  (npc_getName 1 event_state = None ∧ npc_getTexture 1 event_state = None
   ∧ npc_getDesc 1 event_state = None)
  ∧ ∃ npc, records event_state !! Z.to_nat 0 = Some npc
           ∧ npc_getName 0 event_state = Some (npc_name npc)
           ∧ npc_getTexture 0 event_state = Some (npc_portrait npc)
           ∧ npc_getDesc 0 event_state = Some (npc_desc npc).
Proof.
  split.
  - apply (proj1 (npc_get_bounds 1 event_state)). right. vm_compute. discriminate.
  - apply (proj2 (proj2 (proj2 (npc_get_bounds 0 event_state)))).
    vm_compute. split; [discriminate | reflexivity].
Defined.

(** ** Clearing and releasing the registry *)

Lemma npc_free_all_fields a st :
  let st' := fold_left (λ st npc, npc_free npc st) a st in
  npc_array st' = npc_array st
  ∧ npc_array_idgen st' = npc_array_idgen st
  ∧ landed st' = landed st.
Proof.
  revert st. induction a as [|npc a IH]; intros st; simpl; [done |].
  destruct (IH (npc_free npc st)) as (-> & -> & ->).
  by rewrite npc_free_array, npc_free_idgen, npc_free_landed.
Qed.

Lemma npc_clear_array st :
  npc_array (npc_clear st) = (λ _, []) <$> npc_array st.
Proof. unfold npc_clear. by destruct (npc_array st) eqn:Ha. Qed.

Lemma npc_clear_idgen st :
  npc_array_idgen (npc_clear st) = npc_array_idgen st.
Proof.
  unfold npc_clear. destruct (npc_array st) as [a |]; [| done]. simpl.
  apply npc_free_all_fields.
Qed.

Lemma npc_clear_landed st : landed (npc_clear st) = landed st.
Proof.
  unfold npc_clear. destruct (npc_array st) as [a |]; [| done]. simpl.
  apply npc_free_all_fields.
Qed.

(** C9. After [npc_clear] the size is 0. After [npc_freeAll] on top of
    it, [npc_array] is NULL as at process start, and [npc_add] behaves as
    on the registry at process start: not landed it returns 0 and changes
    nothing; landed it creates the collection anew, holding just the added
    record under the id returned. The generator is not rewound: the id is
    the next one after those given out before, not 1. *)
Theorem npc_clear_freeAll (npc : NPC_t) (st : State) :
  npc_getArraySize (npc_clear st) = 0
  ∧ let st1 := npc_freeAll (npc_clear st) in
    let st0 := fresh_registry st1 in
    npc_array st1 = npc_array init_state
    ∧ npc_getArraySize st1 = 0
    ∧ (landed st1 = false →
         npc_add npc st1 = (0, st1) ∧ npc_add npc st0 = (0, st0))
    ∧ (landed st1 = true →
         npc_array (snd (npc_add npc st1))
         = Some [set_npc_id (fst (npc_add npc st1)) npc]
         ∧ npc_array (snd (npc_add npc st0))
           = Some [set_npc_id (fst (npc_add npc st0)) npc]
         ∧ fst (npc_add npc st1) = uint (npc_array_idgen st + 1)
         ∧ fst (npc_add npc st0) = 1).
Proof.
  split; [| split; [| split; [| split]]].
  - unfold npc_getArraySize. rewrite npc_clear_array.
    by destruct (npc_array st).
  - done.
  - done.
  - intros Hl. split; apply npc_add_not_landed; done.
  - intros Hl. rewrite !npc_add_landed by done. simpl.
    unfold npc_freeAll. simpl. by rewrite !npc_clear_idgen.
Qed.

Lemma npc_clear_freeAll_witness :
  npc_array (snd (npc_add event_npc (npc_freeAll (npc_clear event_state))))
  = Some [set_npc_id 2 event_npc]
  ∧ npc_add event_npc (npc_freeAll (npc_clear init_state))
    = (0, npc_freeAll (npc_clear init_state)).
Proof.
  split.
  - destruct (npc_clear_freeAll event_npc event_state)
      as (_ & _ & _ & _ & Hl).
    destruct (Hl eq_refl) as (Ha & _ & Hid & _).
    rewrite Ha, Hid. reflexivity.
  - destruct (npc_clear_freeAll event_npc init_state)
      as (_ & _ & _ & Hn & _).
    apply (Hn eq_refl).
Defined.

(** ** Approaching a mission giver *)

Lemma free_slot_loop_full pm i n :
  (∀ k, (i ≤ k < i + n)%nat → pm k ≠ None) →
  free_slot_loop pm i n = (i + n)%nat.
Proof.
  revert i. induction n as [|n IH]; intros i Hfull; simpl; [lia |].
  destruct (pm i) eqn:Hi.
  - rewrite IH; [lia |]. intros k Hk. apply Hfull. lia.
  - exfalso. apply (Hfull i); [lia | done].
Qed.

Lemma free_slot_loop_free pm i n k :
  (i ≤ k < i + n)%nat → pm k = None →
  (free_slot_loop pm i n < i + n)%nat.
Proof.
  revert i. induction n as [|n IH]; intros i Hk Hfree; simpl; [lia |].
  destruct (pm i) eqn:Hi; [| lia].
  assert (k ≠ i) by congruence.
  assert (Hk' : (S i ≤ k < S i + n)%nat) by lia.
  specialize (IH (S i) Hk' Hfree). lia.
Qed.

Lemma npc_approach_giver_at MISSION_MAX mission_accept i st npc g :
  0 ≤ i < npc_getArraySize st →
  records st !! Z.to_nat i = Some npc →
  npc_u npc = u_g g →
  npc_approach MISSION_MAX mission_accept i st
  = npc_approach_giver MISSION_MAX mission_accept (Z.to_nat i) npc g st.
Proof.
  intros (Hin & npc' & Hrec & Hat)%bounds_check_in Hnpc Hu.
  unfold npc_approach. rewrite Hin, Hat.
  assert (npc' = npc) as -> by congruence. by rewrite Hu.
Qed.

(** C4. When every player mission slot is taken, approaching a giver
    returns -1; the only effect is the alert: the collection, the strings
    and the textures are what they were. *)
Theorem npc_approach_giver_full MISSION_MAX mission_accept
    (i : Z) (st : State) (npc : NPC_t) (g : Mission) :
  0 ≤ i < npc_getArraySize st →
  records st !! Z.to_nat i = Some npc →
  npc_u npc = u_g g →
  (∀ k, (k < MISSION_MAX)%nat → player_missions st k ≠ None) →
  let st' := snd (npc_approach MISSION_MAX mission_accept i st) in
  fst (npc_approach MISSION_MAX mission_accept i st) = -1
  ∧ st' = emit (EvAlert "You have too many active missions.") st
  ∧ npc_array st' = npc_array st
  ∧ heap st' = heap st
  ∧ textures st' = textures st.
Proof.
  intros Hi Hnpc Hu Hfull.
  rewrite (npc_approach_giver_at _ _ _ _ _ _ Hi Hnpc Hu).
  unfold npc_approach_giver.
  rewrite free_slot_loop_full by (intros k Hk; apply Hfull; lia).
  simpl. rewrite Nat.leb_refl. done.
Qed.

Lemma npc_approach_giver_full_witness :
  fst (npc_approach 12 (accept_returning 0) 0 busy_state) = -1
  ∧ npc_array (snd (npc_approach 12 (accept_returning 0) 0 busy_state))
    = Some [giver_npc].
Proof.
  destruct (npc_approach_giver_full 12 (accept_returning 0) 0 busy_state
              giver_npc (bar_mission 5))
    as (Hret & _ & Ha & _).
  - vm_compute. split; [discriminate | reflexivity].
  - vm_compute. reflexivity.
  - reflexivity.
  - intros k _. discriminate.
  - split; [exact Hret |]. rewrite Ha. vm_compute. reflexivity.
Defined.

(** C3. Approaching a giver when [mission_accept] is reached (a player
    slot is free): if it returns 0, 2 or -1, the call returns 1, the
    record is freed (name, description, portrait, mission cleanup) and
    taken out of the collection; on any other value the call returns 0
    and the collection, strings and textures are what they were. *)
Theorem npc_approach_giver_outcome MISSION_MAX mission_accept
    (i : Z) (st : State) (npc : NPC_t) (g : Mission)
    (ret : Z) (pm : nat → option Mission) (k : nat) :
  0 ≤ i < npc_getArraySize st →
  records st !! Z.to_nat i = Some npc →
  npc_u npc = u_g g →
  (k < MISSION_MAX)%nat → player_missions st k = None →
  mission_accept g (player_missions st) = (ret, pm) →
  let st' := snd (npc_approach MISSION_MAX mission_accept i st) in
  (ret = 0 ∨ ret = 2 ∨ ret = -1 →
     fst (npc_approach MISSION_MAX mission_accept i st) = 1
     ∧ (∃ l1 l2, records st = l1 ++ npc :: l2
                 ∧ length l1 = Z.to_nat i
                 ∧ npc_array st' = Some (l1 ++ l2))
     ∧ heap st' = delete (npc_desc npc) (delete (npc_name npc) (heap st))
     ∧ textures st' = delete (npc_portrait npc) (textures st)
     ∧ EvMissionCleanup (npc_id npc) ∈ log st')
  ∧ (ret ≠ 0 ∧ ret ≠ 2 ∧ ret ≠ -1 →
     fst (npc_approach MISSION_MAX mission_accept i st) = 0
     ∧ npc_array st' = npc_array st
     ∧ heap st' = heap st
     ∧ textures st' = textures st).
Proof.
  intros Hi Hnpc Hu Hk Hfree Hacc.
  rewrite (npc_approach_giver_at _ _ _ _ _ _ Hi Hnpc Hu).
  unfold npc_approach_giver.
  pose proof (free_slot_loop_free (player_missions st) 0 MISSION_MAX k
                ltac:(lia) Hfree) as Hslot.
  rewrite (proj2 (Nat.leb_gt _ _)) by lia.
  rewrite Hacc. simpl. split.
  - intros Hret.
    assert ((ret =? 0) || (ret =? 2) || (ret =? -1) = true) as ->.
    { rewrite !orb_true_iff, !Z.eqb_eq. tauto. }
    unfold records, npc_getArraySize in *.
    destruct (npc_array st) as [a |] eqn:Ha; simpl in *; [| done].
    split; [done |]. split; [| split; [| split]].
    + exists (take (Z.to_nat i) a), (drop (S (Z.to_nat i)) a). split_and!.
      * by rewrite take_drop_middle.
      * rewrite length_take. lia.
      * rewrite npc_free_array. destruct (ret =? -1); simpl;
          rewrite Ha; simpl; unfold array_erase;
          by rewrite delete_take_drop.
    + unfold npc_free. rewrite Hu.
      destruct (ret =? -1); simpl; by rewrite Ha.
    + unfold npc_free. rewrite Hu.
      destruct (ret =? -1); simpl; by rewrite Ha.
    + unfold npc_free. rewrite Hu.
      destruct (ret =? -1); simpl; rewrite Ha; simpl;
        rewrite !elem_of_app, !list_elem_of_singleton; tauto.
  - intros (H0 & H2 & H1).
    apply Z.eqb_neq in H0, H2, H1. by rewrite H0, H2, H1.
Qed.

Lemma npc_approach_giver_outcome_witness :
  (fst (npc_approach 12 (accept_returning 2) 0 giver_state) = 1
   ∧ npc_array (snd (npc_approach 12 (accept_returning 2) 0 giver_state))
     = Some [])
  ∧ fst (npc_approach 12 (accept_returning 1) 0 giver_state) = 0
  ∧ npc_array (snd (npc_approach 12 (accept_returning 1) 0 giver_state))
    = Some [giver_npc].
Proof.
  assert (Hi : 0 ≤ 0 < npc_getArraySize giver_state)
    by (vm_compute; split; [discriminate | reflexivity]).
  assert (Hnpc : records giver_state !! Z.to_nat 0 = Some giver_npc)
    by (vm_compute; reflexivity).
  assert (Hk : (0 < 12)%nat) by lia.
  split.
  - destruct (npc_approach_giver_outcome 12 (accept_returning 2) 0
                giver_state giver_npc (bar_mission 5) 2
                (player_missions giver_state) 0
                Hi Hnpc eq_refl Hk eq_refl eq_refl) as [Hok _].
    destruct Hok as (Hret & (l1 & l2 & Hl & Hlen & Ha) & _); [lia |].
    split; [exact Hret |]. vm_compute. reflexivity.
  - destruct (npc_approach_giver_outcome 12 (accept_returning 1) 0
                giver_state giver_npc (bar_mission 5) 1
                (player_missions giver_state) 0
                Hi Hnpc eq_refl Hk eq_refl eq_refl) as [_ Hno].
    destruct Hno as (Hret & Ha & _); [lia |].
    split; [exact Hret |]. rewrite Ha. vm_compute. reflexivity.
Defined.

(** ** The id generator *)

Lemma Issued_app g ids g' ids' g'' :
  Issued g ids g' → Issued g' ids' g'' → Issued g (ids ++ ids') g''.
Proof. induction 1; simpl; intros; [done | |]; constructor; auto. Qed.

Lemma issued_cons_0 ids : issued (0 :: ids) = issued ids.
Proof. done. Qed.

Lemma issued_cons_pos id ids : id ≠ 0 → issued (id :: ids) = id :: issued ids.
Proof. intros H%Z.eqb_neq. unfold issued. simpl. by rewrite H. Qed.

(** As long as the generator stays below [UINT_MAX], the values returned
    are bounded by the generator, and the non-zero ones ascend. *)
Lemma Issued_bound g ids g' :
  Issued g ids g' → 0 ≤ g → g + Z.of_nat (length ids) ≤ UINT_MAX →
  g ≤ g' ≤ g + Z.of_nat (length ids)
  ∧ Forall (λ id, 0 ≤ id ≤ g') ids
  ∧ Forall (λ id, g < id ≤ g') (issued ids)
  ∧ StronglySorted Z.lt (issued ids).
Proof.
  induction 1 as [g | g ids g' _ IH | g ids g' _ IH]; intros Hg Hlen.
  - simpl. split_and!; [lia | lia | constructor | constructor | constructor].
  - simpl length in *. destruct IH as (Hg' & Hall & Hlt & Hs); [lia | lia |].
    rewrite issued_cons_0. split_and!; try done; try lia.
    constructor; [lia | done].
  - simpl length in *.
    rewrite uint_succ in * by lia.
    destruct IH as (Hg' & Hall & Hlt & Hs); [lia | lia |].
    rewrite issued_cons_pos by lia. split_and!; try lia.
    + constructor; [lia | done].
    + constructor; [lia |]. eapply Forall_impl; [exact Hlt |].
      simpl. intros; lia.
    + constructor; [done |]. eapply Forall_impl; [exact Hlt |].
      simpl. intros; lia.
Qed.

Lemma StronglySorted_lt_NoDup (l : list Z) : StronglySorted Z.lt l → NoDup l.
Proof.
  induction 1 as [|x l _ IH Hx]; constructor; [| done].
  intros Hin. eapply Forall_forall in Hx; [| exact Hin]. lia.
Qed.

Lemma npc_add_Issued npc st :
  Issued (npc_array_idgen st) [fst (npc_add npc st)]
         (npc_array_idgen (snd (npc_add npc st))).
Proof.
  unfold npc_add. destruct (landed st); simpl; repeat constructor.
Qed.

Lemma npc_add_giver_Issued m st :
  Issued (npc_array_idgen st) [fst (npc_add_giver m st)]
         (npc_array_idgen (snd (npc_add_giver m st))).
Proof.
  unfold npc_add_giver. simpl.
  match goal with
  | |- context [npc_add ?npc ?st'] => exact (npc_add_Issued npc st')
  end.
Qed.

Lemma npc_add_mission_Issued misn func name priority portrait desc st :
  Issued (npc_array_idgen st)
    [fst (npc_add_mission misn func name priority portrait desc st)]
    (npc_array_idgen
       (snd (npc_add_mission misn func name priority portrait desc st))).
Proof.
  unfold npc_add_mission. simpl.
  match goal with
  | |- context [npc_add ?npc ?st'] => exact (npc_add_Issued npc st')
  end.
Qed.

Lemma npc_add_event_Issued evt func name priority portrait desc st :
  Issued (npc_array_idgen st)
    [fst (npc_add_event evt func name priority portrait desc st)]
    (npc_array_idgen
       (snd (npc_add_event evt func name priority portrait desc st))).
Proof.
  unfold npc_add_event. simpl.
  match goal with
  | |- context [npc_add ?npc ?st'] => exact (npc_add_Issued npc st')
  end.
Qed.

Lemma npc_generate_loop_Issued ms st :
  Issued (npc_array_idgen st) (fst (npc_generate_loop ms st))
         (npc_array_idgen (snd (npc_generate_loop ms st))).
Proof.
  revert st. induction ms as [|m ms IH]; intros st; simpl; [constructor |].
  pose proof (npc_add_giver_Issued m st) as H1.
  destruct (npc_add_giver m st) as [id st1]. simpl in H1.
  specialize (IH st1).
  destruct (npc_generate_loop ms st1) as [ids st2]. simpl in *.
  apply (Issued_app _ [id] _ _ _ H1 IH).
Qed.

Lemma npc_sort_idgen st : npc_array_idgen (npc_sort st) = npc_array_idgen st.
Proof. unfold npc_sort. by destruct (npc_array st). Qed.

Lemma npc_rm_idgen i npc st :
  npc_array_idgen (snd (npc_rm i npc st)) = npc_array_idgen st.
Proof.
  unfold npc_rm. simpl. rewrite npc_free_array.
  destruct (npc_array st); simpl; apply npc_free_idgen.
Qed.

Lemma npc_rm_event_idgen id evt st :
  npc_array_idgen (snd (npc_rm_event id evt st)) = npc_array_idgen st.
Proof.
  unfold npc_rm_event. repeat case_match; try done; apply npc_rm_idgen.
Qed.

Lemma npc_rm_mission_idgen id misn st :
  npc_array_idgen (snd (npc_rm_mission id misn st)) = npc_array_idgen st.
Proof.
  unfold npc_rm_mission. repeat case_match; try done; apply npc_rm_idgen.
Qed.

Lemma npc_approach_idgen MISSION_MAX mission_accept i st :
  npc_array_idgen (snd (npc_approach MISSION_MAX mission_accept i st))
  = npc_array_idgen st.
Proof.
  unfold npc_approach, npc_approach_giver.
  repeat case_match; simpl; try done;
    rewrite ?npc_free_idgen; try done;
    match goal with
    | H : npc_array (npc_free _ _) = _ |- _ => rewrite npc_free_array in H
    end; simpl in *; done.
Qed.

Lemma step_Issued MISSION_MAX mission_accept op st :
  Issued (npc_array_idgen st) (fst (step MISSION_MAX mission_accept op st))
         (npc_array_idgen (snd (step MISSION_MAX mission_accept op st))).
Proof.
  destruct op; simpl.
  - constructor.
  - pose proof (npc_add_mission_Issued misn func name priority portrait desc st).
    by destruct (npc_add_mission _ _ _ _ _ _ _).
  - pose proof (npc_add_event_Issued evt func name priority portrait desc st).
    by destruct (npc_add_event _ _ _ _ _ _ _).
  - rewrite npc_rm_event_idgen. constructor.
  - rewrite npc_rm_mission_idgen. constructor.
  - unfold npc_generate. rewrite npc_sort_idgen.
    apply npc_generate_loop_Issued.
  - rewrite npc_clear_idgen. constructor.
  - unfold npc_freeAll. simpl. rewrite npc_clear_idgen. constructor.
  - rewrite npc_approach_idgen. constructor.
Qed.

Lemma run_cons MISSION_MAX mission_accept op ops st :
  run MISSION_MAX mission_accept (op :: ops) st
  = (fst (step MISSION_MAX mission_accept op st)
     ++ fst (run MISSION_MAX mission_accept ops
               (snd (step MISSION_MAX mission_accept op st))),
     snd (run MISSION_MAX mission_accept ops
            (snd (step MISSION_MAX mission_accept op st)))).
Proof.
  simpl. destruct (step _ _ op st) as [ids st1]. simpl.
  by destruct (run _ _ ops st1).
Qed.

Lemma run_app MISSION_MAX mission_accept ops1 ops2 st :
  run MISSION_MAX mission_accept (ops1 ++ ops2) st
  = (fst (run MISSION_MAX mission_accept ops1 st)
     ++ fst (run MISSION_MAX mission_accept ops2
               (snd (run MISSION_MAX mission_accept ops1 st))),
     snd (run MISSION_MAX mission_accept ops2
            (snd (run MISSION_MAX mission_accept ops1 st)))).
Proof.
  revert st. induction ops1 as [|op ops1 IH]; intros st.
  - simpl. by destruct (run _ _ ops2 st).
  - rewrite <- app_comm_cons, !run_cons, IH. simpl. by rewrite app_assoc.
Qed.

Lemma run_Issued MISSION_MAX mission_accept ops st :
  Issued (npc_array_idgen st) (fst (run MISSION_MAX mission_accept ops st))
         (npc_array_idgen (snd (run MISSION_MAX mission_accept ops st))).
Proof.
  revert st. induction ops as [|op ops IH]; intros st.
  - constructor.
  - rewrite run_cons. simpl. eapply Issued_app; [apply step_Issued | apply IH].
Qed.

(** *** Repeated adds while landed *)

Lemma step_add_op MISSION_MAX mission_accept st :
  landed st = true →
  fst (step MISSION_MAX mission_accept add_op st)
  = [uint (npc_array_idgen st + 1)]
  ∧ npc_array_idgen (snd (step MISSION_MAX mission_accept add_op st))
    = uint (npc_array_idgen st + 1)
  ∧ landed (snd (step MISSION_MAX mission_accept add_op st)) = true.
Proof.
  intros Hl. unfold step, add_op, npc_add_event, strdup, gl_newImage.
  rewrite npc_add_landed by done. done.
Qed.

Lemma uint_add_l a b : uint (uint a + b) = uint (a + b).
Proof. unfold uint. apply Zplus_mod_idemp_l. Qed.

Lemma uint_range x : 0 ≤ uint x ≤ UINT_MAX.
Proof.
  unfold uint, UINT_MAX.
  pose proof (Z.mod_pos_bound x 4294967296). lia.
Qed.

Lemma uint_small x : 0 ≤ x ≤ UINT_MAX → uint x = x.
Proof. unfold uint, UINT_MAX. intros H. apply Z.mod_small. lia. Qed.

Lemma run_repeat_add_op MISSION_MAX mission_accept n st :
  landed st = true → 0 ≤ npc_array_idgen st ≤ UINT_MAX →
  fst (run MISSION_MAX mission_accept (repeat add_op n) st)
  = (λ j, uint (npc_array_idgen st + 1 + Z.of_nat j)) <$> seq 0 n
  ∧ npc_array_idgen (snd (run MISSION_MAX mission_accept (repeat add_op n) st))
    = uint (npc_array_idgen st + Z.of_nat n)
  ∧ landed (snd (run MISSION_MAX mission_accept (repeat add_op n) st)) = true.
Proof.
  revert st. induction n as [|n IH]; intros st Hl Hr.
  - simpl. split_and!; try done.
    by rewrite Z.add_0_r, uint_small.
  - change (repeat add_op (S n)) with (add_op :: repeat add_op n).
    rewrite run_cons.
    destruct (step_add_op MISSION_MAX mission_accept st Hl)
      as (Hids & Hgen & Hl').
    destruct (IH _ Hl' ltac:(rewrite Hgen; apply uint_range))
      as (IHids & IHgen & IHl).
    cbn [fst snd]. rewrite Hids, IHids, IHgen, Hgen.
    split_and!; [| | done].
    + simpl. rewrite Z.add_0_r. f_equal.
      rewrite <- fmap_S_seq, <- list_fmap_compose.
      apply list_fmap_ext. intros _ j _. simpl.
      trans (uint (uint (npc_array_idgen st + 1) + (1 + Z.of_nat j))).
      * apply (f_equal uint). lia.
      * rewrite uint_add_l. apply (f_equal uint). lia.
    + rewrite uint_add_l. apply (f_equal uint). lia.
Qed.

(** C5, as amended. In a run from process start in which add is called
    at most [UINT_MAX] times, the non-zero ids returned ascend strictly
    (each is greater than all returned before it), hence are pairwise
    distinct; they lie between 1 and the generator; and the generator
    never goes down along the run. *)
Theorem ids_increase MISSION_MAX mission_accept (ops : list Op) :
  Z.of_nat (length (fst (run MISSION_MAX mission_accept ops init_state)))
  ≤ UINT_MAX →
  StronglySorted Z.lt
    (issued (fst (run MISSION_MAX mission_accept ops init_state)))
  ∧ NoDup (issued (fst (run MISSION_MAX mission_accept ops init_state)))
  ∧ Forall
      (λ id, 0 < id
             ≤ npc_array_idgen
                 (snd (run MISSION_MAX mission_accept ops init_state)))
      (issued (fst (run MISSION_MAX mission_accept ops init_state)))
  ∧ ∀ ops1 ops2, ops = ops1 ++ ops2 →
      npc_array_idgen (snd (run MISSION_MAX mission_accept ops1 init_state))
      ≤ npc_array_idgen (snd (run MISSION_MAX mission_accept ops init_state)).
Proof.
  intros Hlen.
  pose proof (run_Issued MISSION_MAX mission_accept ops init_state) as Hrun.
  change (npc_array_idgen init_state) with 0 in Hrun.
  destruct (Issued_bound _ _ _ Hrun) as (Hg & Hall & Hpos & Hs); [lia | lia |].
  split_and!; [done | by apply StronglySorted_lt_NoDup | done |].
  intros ops1 ops2 ->. rewrite run_app in *. cbn [fst snd] in *.
  rewrite length_app in Hlen.
  pose proof (run_Issued MISSION_MAX mission_accept ops1 init_state) as H1.
  change (npc_array_idgen init_state) with 0 in H1.
  destruct (Issued_bound _ _ _ H1) as (Hg1 & _); [lia | lia |].
  pose proof (run_Issued MISSION_MAX mission_accept ops2
                (snd (run MISSION_MAX mission_accept ops1 init_state))) as H2.
  destruct (Issued_bound _ _ _ H2) as (Hg2 & _); lia.
Qed.

Lemma ids_increase_witness :
  fst (run 12 (accept_returning 0)
         [OpLand true; add_op; OpGenerate [bar_mission 5; bar_mission 1];
          OpClear; OpLand false; add_op; OpLand true; add_op]
         init_state)
  = [1; 2; 3; 0; 4]
  ∧ StronglySorted Z.lt [1; 2; 3; 4].
Proof.
  split; [vm_compute; reflexivity |].
  apply (ids_increase 12 (accept_returning 0)
           [OpLand true; add_op; OpGenerate [bar_mission 5; bar_mission 1];
            OpClear; OpLand false; add_op; OpLand true; add_op]).
  vm_compute. discriminate.
Defined.

(** *** Wrap-around of the generator *)

Lemma run_exhausting MISSION_MAX mission_accept n :
  Z.of_nat n = UINT_MAX →
  let st := snd (run MISSION_MAX mission_accept
                   (OpLand true :: repeat add_op n) init_state) in
  fst (run MISSION_MAX mission_accept
         (OpLand true :: repeat add_op n) init_state)
  = (λ j, uint (1 + Z.of_nat j)) <$> seq 0 n
  ∧ npc_array_idgen st = UINT_MAX
  ∧ landed st = true.
Proof.
  intros Hn. rewrite run_cons.
  change (step MISSION_MAX mission_accept (OpLand true) init_state)
    with (@nil Z, landed_state).
  cbn [fst snd app].
  destruct (run_repeat_add_op MISSION_MAX mission_accept n landed_state)
    as (Hids & Hgen & Hl); [done | done |].
  change (npc_array_idgen landed_state) with 0 in *.
  rewrite Hids, Hgen, Hl, Hn. done.
Qed.

Lemma run_wrap MISSION_MAX mission_accept n :
  Z.of_nat n = UINT_MAX →
  ∃ ids,
    issued (fst (run MISSION_MAX mission_accept
                   ((OpLand true :: repeat add_op n) ++ [add_op; add_op])
                   init_state))
    = 1 :: ids ++ [1].
Proof.
  intros Hn. rewrite run_app.
  destruct (run_exhausting MISSION_MAX mission_accept n Hn)
    as (Hids & Hgen & Hl).
  cbn [fst snd]. rewrite Hids.
  set (st := snd (run MISSION_MAX mission_accept
                    (OpLand true :: repeat add_op n) init_state)) in *.
  rewrite !run_cons.
  destruct (step_add_op MISSION_MAX mission_accept st Hl)
    as (Hids1 & Hgen1 & Hl1).
  set (st1 := snd (step MISSION_MAX mission_accept add_op st)) in *.
  destruct (step_add_op MISSION_MAX mission_accept st1 Hl1)
    as (Hids2 & _ & _).
  cbn [fst snd run]. rewrite Hids1, Hids2, Hgen1, Hgen.
  change (uint (UINT_MAX + 1)) with 0.
  change (uint (0 + 1)) with 1.
  destruct n as [|n]; [done |].
  exists (issued ((λ j, uint (1 + Z.of_nat j)) <$> seq 1 n)).
  unfold issued. rewrite !List.filter_app. simpl. done.
Qed.

(** C5 fails as stated: land, add [UINT_MAX] + 2 times; the id 1 is
    returned by the first add and again by the last. *)
Lemma ids_wrap_counterexample :
  ¬ StronglySorted Z.lt
      (issued (fst (run 12 (accept_returning 0) wrap_ops init_state))).
Proof.
  unfold wrap_ops, exhausting_ops.
  destruct (run_wrap 12 (accept_returning 0) (Z.to_nat UINT_MAX)) as [ids ->].
  { apply Z2Nat.id. unfold UINT_MAX. lia. }
  intros [Hlt _]%StronglySorted_cons.
  apply Forall_app in Hlt as [_ Hlt].
  apply Forall_cons in Hlt as [Hlt _]. lia.
Qed.

(** ** Adding a mission NPC *)

Lemma npc_add_mission_not_landed misn func name priority portrait desc st :
  landed st = false →
  fst (npc_add_mission misn func name priority portrait desc st) = 0
  ∧ npc_array (snd (npc_add_mission misn func name priority portrait desc st))
    = npc_array st.
Proof.
  intros Hl. unfold npc_add_mission, strdup, gl_newImage.
  rewrite npc_add_not_landed by done. done.
Qed.

Lemma npc_add_mission_landed misn func name priority portrait desc st :
  landed st = true →
  let r := npc_add_mission misn func name priority portrait desc st in
  fst r = uint (npc_array_idgen st + 1)
  ∧ npc_array_idgen (snd r) = fst r
  ∧ ∃ name' portrait' desc' func',
      npc_array (snd r)
      = Some (records st
              ++ [mkNPC (fst r) priority name' portrait' desc'
                        (u_m (mkNPCmisnData misn func'))])
      ∧ heap (snd r)
        = <[func' := func]> (<[desc' := desc]> (<[name' := name]> (heap st)))
      ∧ heap st !! func' = None ∧ heap st !! desc' = None
      ∧ heap st !! name' = None ∧ NoDup [name'; desc'; func']
      ∧ textures (snd r) = <[portrait' := TexImage portrait]> (textures st)
      ∧ textures st !! portrait' = None.
Proof.
  intros Hl. unfold npc_add_mission, strdup, gl_newImage.
  rewrite npc_add_landed by done. simpl.
  set (name' := fresh (dom (heap st))).
  set (desc' := fresh (dom (<[name' := name]> (heap st)))).
  set (func' := fresh (dom (<[desc' := desc]> (<[name' := name]> (heap st))))).
  assert (Hn : name' ∉ dom (heap st)) by apply is_fresh.
  assert (Hd : desc' ∉ dom (<[name' := name]> (heap st))) by apply is_fresh.
  assert (Hf : func' ∉ dom (<[desc' := desc]> (<[name' := name]> (heap st))))
    by apply is_fresh.
  rewrite !dom_insert_L, !not_elem_of_union, !not_elem_of_singleton in Hf.
  rewrite !dom_insert_L, !not_elem_of_union, !not_elem_of_singleton in Hd.
  destruct Hf as (Hfd & Hfn & Hf). destruct Hd as (Hdn & Hd).
  split_and!; try done.
  exists name', (fresh (dom (textures st))), desc', func'.
  split_and!; try done; try by apply (not_elem_of_dom (D:=gset ptr)).
  - apply NoDup_cons. split.
    + rewrite !elem_of_cons, elem_of_nil. intros [H | [H | []]]; congruence.
    + apply NoDup_cons. split; [| apply NoDup_singleton].
      rewrite elem_of_cons, elem_of_nil. intros [H | []]; congruence.
  - apply (not_elem_of_dom (D:=gset ptr)), is_fresh.
Qed.

(** C7 fails as stated. Not landed, [npc_add_mission] returns 0 and
    appends nothing; and landed with the generator at [UINT_MAX], it
    returns 0 as well. *)
Lemma npc_add_mission_counterexample :
  (landed init_state = false
   ∧ fst (npc_add_mission 5%positive "accept" "Agent" 3 "agent.png"
            "An agent." init_state) = 0
   ∧ npc_array (snd (npc_add_mission 5%positive "accept" "Agent" 3
                       "agent.png" "An agent." init_state))
     = npc_array init_state)
  ∧ (landed (snd (run 12 (accept_returning 0) exhausting_ops init_state))
     = true
     ∧ fst (npc_add_mission 5%positive "accept" "Agent" 3 "agent.png"
              "An agent."
              (snd (run 12 (accept_returning 0) exhausting_ops init_state)))
       = 0).
Proof.
  split.
  - split; [done |]. by apply npc_add_mission_not_landed.
  - unfold exhausting_ops.
    destruct (run_exhausting 12 (accept_returning 0) (Z.to_nat UINT_MAX))
      as (_ & Hgen & Hl).
    { apply Z2Nat.id. unfold UINT_MAX. lia. }
    split; [exact Hl |].
    destruct (npc_add_mission_landed 5%positive "accept" "Agent" 3
                "agent.png" "An agent." _ Hl) as (-> & _).
    by rewrite Hgen.
Qed.

(** C7, as amended. After any run from process start: not landed,
    [npc_add_mission] returns 0 and the collection is the one it was;
    landed, and fewer than [UINT_MAX] adds made so far, it returns a
    non-zero id greater than every id returned before, and appends a
    record with that id that stores the mission pointer itself and a
    freshly allocated copy of the callback name. *)
Theorem npc_add_mission_spec MISSION_MAX mission_accept (ops : list Op)
    (misn : ptr) (func name : string) (priority : Z)
    (portrait desc : string) :
  let ids := fst (run MISSION_MAX mission_accept ops init_state) in
  let st := snd (run MISSION_MAX mission_accept ops init_state) in
  let r := npc_add_mission misn func name priority portrait desc st in
  (landed st = false → fst r = 0 ∧ npc_array (snd r) = npc_array st)
  ∧ (landed st = true → Z.of_nat (length ids) < UINT_MAX →
     fst r ≠ 0
     ∧ Forall (λ id, id < fst r) ids
     ∧ npc_array_idgen (snd r) = fst r
     ∧ ∃ name' portrait' desc' func',
         npc_array (snd r)
         = Some (records st
                 ++ [mkNPC (fst r) priority name' portrait' desc'
                           (u_m (mkNPCmisnData misn func'))])
         ∧ heap st !! func' = None
         ∧ heap (snd r) !! func' = Some func).
Proof.
  intros ids st r. split.
  - apply npc_add_mission_not_landed.
  - intros Hl Hlen.
    pose proof (run_Issued MISSION_MAX mission_accept ops init_state) as Hrun.
    change (npc_array_idgen init_state) with 0 in Hrun.
    destruct (Issued_bound _ _ _ Hrun) as (Hg & Hall & _); [lia | |].
    { fold ids. lia. }
    fold ids st in Hg, Hall.
    destruct (npc_add_mission_landed misn func name priority portrait desc
                st Hl)
      as (Hid & Hgen & name' & portrait' & desc' & func' & Ha & Hh & Hf & _).
    fold r in Hid, Hgen, Ha, Hh.
    rewrite uint_succ in Hid by lia.
    split_and!; [lia | | done |].
    + eapply Forall_impl; [exact Hall |]. simpl. intros; lia.
    + exists name', portrait', desc', func'. split_and!; [done | done |].
      rewrite Hh. apply lookup_insert_eq.
Qed.

Lemma npc_add_mission_spec_witness :
  fst (npc_add_mission 5%positive "accept" "Agent" 3 "agent.png" "An agent."
         event_state) = 2
  ∧ fst (npc_add_mission 5%positive "accept" "Agent" 3 "agent.png"
           "An agent." init_state) = 0.
Proof.
  split.
  - destruct (npc_add_mission_spec 12 (accept_returning 0)
                [OpLand true; add_op] 5%positive "accept" "Agent" 3
                "agent.png" "An agent.") as [_ Hl].
    destruct Hl as (Hnz & Hlt & _); [reflexivity | vm_compute; reflexivity |].
    vm_compute. reflexivity.
  - destruct (npc_add_mission_spec 12 (accept_returning 0) [] 5%positive
                "accept" "Agent" 3 "agent.png" "An agent.") as [Hn _].
    apply Hn. reflexivity.
Defined.

(** * Resources and ids along a run *)

#[local] Set Warnings "-clear-no-such-hyp".

(** ** Elementary changes keep the invariants *)

Lemma Move_weaken leaky n s s' : Move leaky n s s' → Move true n s s'.
Proof.
  induction 1; eauto using Move.
Qed.

Lemma bind_snoc (l : list NPC_t) r :
  (l ++ [r]) ≫= owned_strings = (l ≫= owned_strings) ++ owned_strings r.
Proof. by rewrite bind_app, bind_singleton. Qed.

Lemma bind_middle (l1 l2 : list NPC_t) r :
  (l1 ++ r :: l2) ≫= owned_strings
  = (l1 ≫= owned_strings) ++ owned_strings r ++ (l2 ≫= owned_strings).
Proof. by rewrite bind_app, bind_cons. Qed.

Lemma Move_owns leaky n s s' : Move leaky n s s' → owns s → owns s'.
Proof.
  induction 1 as [leaky s | s s' Hr Hg Hs Ht
                 | leaky s s' r Hr Hid Hg Hnd Hfresh Hs Hpf Ht
                 | leaky s s' l1 r l2 Hr Hr' Hg Hs Ht
                 | leaky s s' Hr Hg Hs Ht
                 | leaky n1 n2 s1 s2 s3 _ IH1 _ IH2]; [done | | | | | tauto].
  - unfold owns, s_owned_strings, s_owned_textures. rewrite Hr.
    intros (HS & HSin & HT & HTin). split_and!; [done | | done |].
    + intros p Hp. apply Hs. auto.
    + intros t Hin. apply Ht. auto.
  - unfold owns, s_owned_strings, s_owned_textures.
    rewrite Hr, bind_snoc, fmap_app, Hs, Ht.
    intros (HS & HSin & HT & HTin). split_and!.
    + apply NoDup_app. split_and!; [done | | done].
      intros p Hp Hp'. by apply (Hfresh p), HSin.
    + intros p [Hp | Hp]%elem_of_app; apply elem_of_union.
      * right. auto.
      * left. by apply elem_of_list_to_set.
    + apply NoDup_app. split_and!; [done | | apply NoDup_singleton].
      intros t Hin ->%list_elem_of_singleton. by apply Hpf, HTin.
    + intros t [Hin | ->%list_elem_of_singleton]%elem_of_app;
        apply elem_of_union; [right; auto | left].
      by apply elem_of_singleton.
  - unfold owns, s_owned_strings, s_owned_textures.
    rewrite Hr, Hr', bind_middle, bind_app, !fmap_app, fmap_cons, Hs, Ht.
    intros (HS & HSin & HT & HTin).
    apply NoDup_app in HS as (HS1 & HS12 & HS2).
    apply NoDup_app in HS2 as (HSr & HSr2 & HS2).
    apply NoDup_app in HT as (HT1 & HT12 & HT2).
    apply NoDup_cons in HT2 as (HTr & HT2).
    split_and!.
    + apply NoDup_app. split_and!; [done | | done].
      intros p Hp Hp'. apply (HS12 p Hp). apply elem_of_app. by right.
    + intros p Hp. apply elem_of_difference. split.
      * apply HSin. rewrite !elem_of_app in *. tauto.
      * rewrite elem_of_list_to_set. intros Hpr.
        apply elem_of_app in Hp as [Hp | Hp].
        -- apply (HS12 p Hp). apply elem_of_app. by left.
        -- by apply (HSr2 p Hpr).
    + apply NoDup_app. split_and!; [done | | done].
      intros t Hin Hin'. apply (HT12 t Hin). by apply elem_of_cons; right.
    + intros t Hin. apply elem_of_difference. split.
      * apply HTin. rewrite elem_of_app, elem_of_cons in *. tauto.
      * rewrite elem_of_singleton. intros ->.
        apply elem_of_app in Hin as [Hin | Hin]; [| done].
        apply (HT12 _ Hin). by apply elem_of_cons; left.
  - unfold owns, s_owned_strings, s_owned_textures.
    rewrite Hs, Ht. intros (HS & HSin & HT & HTin). split_and!.
    + by rewrite Hr.
    + intros p. rewrite Hr. auto.
    + by rewrite Hr.
    + intros t. rewrite Hr. auto.
Qed.

Lemma Move_owns_all n s s' : Move false n s s' → owns_all s → owns_all s'.
Proof.
  intros HM [Ho [HS HT]]. split; [by eapply Move_owns |].
  clear Ho. remember false as leaky eqn:Hl.
  induction HM as [leaky s | s s' Hr Hg Hs Ht
                 | leaky s s' r Hr Hid Hg Hnd Hfresh Hs Hpf Ht
                 | leaky s s' l1 r l2 Hr Hr' Hg Hs Ht
                 | leaky s s' Hr Hg Hs Ht
                 | leaky n1 n2 s1 s2 s3 _ IH1 _ IH2];
    [done | done | | | | by apply IH2; [| apply IH1 | apply IH1]].
  - unfold s_owned_strings, s_owned_textures in *.
    rewrite Hr, bind_snoc, fmap_app, Hs, Ht. split.
    + intros p [Hp%elem_of_list_to_set | Hp]%elem_of_union;
        apply elem_of_app; auto.
    + intros t [Hp%elem_of_singleton | Hp]%elem_of_union;
        apply elem_of_app; [right | auto].
      by apply list_elem_of_singleton.
  - unfold s_owned_strings, s_owned_textures in *.
    rewrite Hr, bind_middle in HS. rewrite Hr, fmap_app, fmap_cons in HT.
    rewrite Hr', bind_app, fmap_app, Hs, Ht. split.
    + intros p [Hp Hnr]%elem_of_difference.
      rewrite elem_of_list_to_set in Hnr.
      apply HS in Hp. rewrite !elem_of_app in *. tauto.
    + intros t [Hp Hnr]%elem_of_difference.
      rewrite elem_of_singleton in Hnr.
      apply HT in Hp. rewrite elem_of_app, elem_of_cons in *. tauto.
  - unfold s_owned_strings, s_owned_textures in *.
    rewrite Hs, Ht. split.
    + intros p. rewrite Hr. auto.
    + intros t. rewrite Hr. auto.
Qed.

Lemma Move_ids_distinct leaky n s s' :
  Move leaky n s s' → 0 ≤ s_idgen s → s_idgen s + Z.of_nat n ≤ UINT_MAX →
  ids_distinct s → ids_distinct s' ∧ s_idgen s' = s_idgen s + Z.of_nat n.
Proof.
  induction 1 as [leaky s | s s' Hr Hg Hs Ht
                 | leaky s s' r Hr Hid Hg Hnd Hfresh Hs Hpf Ht
                 | leaky s s' l1 r l2 Hr Hr' Hg Hs Ht
                 | leaky s s' Hr Hg Hs Ht
                 | leaky n1 n2 s1 s2 s3 _ IH1 _ IH2];
    intros Hpos Hbound [Hnd' Hall]; unfold ids_distinct.
  - split; [done | lia].
  - rewrite Hr, Hg. split; [done | lia].
  - rewrite Hr, Hg, fmap_app. rewrite uint_succ in * by lia.
    split; [| lia]. split.
    + apply NoDup_app. split_and!; [done | | apply NoDup_singleton].
      intros id Hin ->%list_elem_of_singleton.
      apply list_elem_of_fmap in Hin as (r' & Hid' & Hin).
      eapply Forall_forall in Hall; [| exact Hin]. simpl in *. lia.
    + apply Forall_app. split.
      * eapply Forall_impl; [exact Hall |]. simpl. intros; lia.
      * apply Forall_singleton. lia.
  - rewrite Hr', Hg. rewrite Hr in Hnd', Hall. split; [| lia].
    rewrite fmap_app, fmap_cons in Hnd'.
    apply NoDup_app in Hnd' as (H1 & H12 & H2).
    apply NoDup_cons in H2 as (Hr2 & H2).
    apply Forall_app in Hall as (Ha1 & Ha2).
    apply Forall_cons in Ha2 as (_ & Ha2). split.
    + rewrite fmap_app. apply NoDup_app. split_and!; [done | | done].
      intros id Hin Hin'. apply (H12 id Hin). by apply elem_of_cons; right.
    + by apply Forall_app.
  - rewrite Hg. split; [| lia]. split.
    + by rewrite Hr.
    + by rewrite Hr.
  - destruct IH1 as [Hd2 Hg2]; [lia | lia | done |].
    destruct IH2 as [Hd3 Hg3]; [lia | lia | done |].
    split; [done | lia].
Qed.

Lemma Move_or leaky1 leaky2 n1 n2 s1 s2 s3 :
  Move leaky1 n1 s1 s2 → Move leaky2 n2 s2 s3 →
  Move (leaky1 || leaky2) (n1 + n2) s1 s3.
Proof.
  intros H1 H2. destruct leaky1, leaky2; simpl;
    eauto using Move, Move_weaken.
Qed.

(** ** What each entry point does to the resources *)

Lemma npc_free_summary npc st :
  dom (heap (npc_free npc st))
  = dom (heap st) ∖ list_to_set (owned_strings npc)
  ∧ dom (textures (npc_free npc st))
    = dom (textures st) ∖ {[npc_portrait npc]}.
Proof.
  unfold npc_free, owned_strings.
  destruct (npc_u npc); simpl; rewrite !dom_delete_L; split; set_solver.
Qed.

Lemma npc_add_event_Move evt func name priority portrait desc st :
  Move (negb (landed st)) (if landed st then 1 else 0) (summary st)
    (summary (snd (npc_add_event evt func name priority portrait desc st))).
Proof.
  unfold npc_add_event, strdup, gl_newImage.
  destruct (landed st) eqn:Hl; simpl.
  - rewrite npc_add_landed by done. simpl.
    set (name' := fresh (dom (heap st))).
    set (desc' := fresh (dom (<[name' := name]> (heap st)))).
    set (func' := fresh (dom (<[desc' := desc]> (<[name' := name]> (heap st))))).
    set (portrait' := fresh (dom (textures st))).
    assert (Hn : name' ∉ dom (heap st)) by apply is_fresh.
    assert (Hd : desc' ∉ dom (<[name' := name]> (heap st))) by apply is_fresh.
    assert (Hf : func' ∉ dom (<[desc' := desc]> (<[name' := name]> (heap st))))
      by apply is_fresh.
    assert (Hp : portrait' ∉ dom (textures st)) by apply is_fresh.
    rewrite !dom_insert_L in Hf, Hd.
    eapply M_add; simpl; try reflexivity; unfold owned_strings; simpl.
    + repeat (apply NoDup_cons; split); try apply NoDup_nil_2; set_solver.
    + set_solver.
    + rewrite !dom_insert_L. set_solver.
    + done.
    + by rewrite dom_insert_L.
  - rewrite npc_add_not_landed by done. simpl.
    apply M_leak; simpl; try done; rewrite !dom_insert_L; set_solver.
Qed.

Lemma npc_add_mission_Move misn func name priority portrait desc st :
  Move (negb (landed st)) (if landed st then 1 else 0) (summary st)
    (summary (snd (npc_add_mission misn func name priority portrait desc st))).
Proof.
  unfold npc_add_mission, strdup, gl_newImage.
  destruct (landed st) eqn:Hl; simpl.
  - rewrite npc_add_landed by done. simpl.
    set (name' := fresh (dom (heap st))).
    set (desc' := fresh (dom (<[name' := name]> (heap st)))).
    set (func' := fresh (dom (<[desc' := desc]> (<[name' := name]> (heap st))))).
    set (portrait' := fresh (dom (textures st))).
    assert (Hn : name' ∉ dom (heap st)) by apply is_fresh.
    assert (Hd : desc' ∉ dom (<[name' := name]> (heap st))) by apply is_fresh.
    assert (Hf : func' ∉ dom (<[desc' := desc]> (<[name' := name]> (heap st))))
      by apply is_fresh.
    assert (Hp : portrait' ∉ dom (textures st)) by apply is_fresh.
    rewrite !dom_insert_L in Hf, Hd.
    eapply M_add; simpl; try reflexivity; unfold owned_strings; simpl.
    + repeat (apply NoDup_cons; split); try apply NoDup_nil_2; set_solver.
    + set_solver.
    + rewrite !dom_insert_L. set_solver.
    + done.
    + by rewrite dom_insert_L.
  - rewrite npc_add_not_landed by done. simpl.
    apply M_leak; simpl; try done; rewrite !dom_insert_L; set_solver.
Qed.

Lemma npc_add_giver_Move m st :
  Move (negb (landed st)) (if landed st then 1 else 0) (summary st)
    (summary (snd (npc_add_giver m st))).
Proof.
  unfold npc_add_giver, strdup, gl_dupTexture.
  destruct (landed st) eqn:Hl; simpl.
  - rewrite npc_add_landed by done. simpl.
    set (name' := fresh (dom (heap st))).
    set (desc' := fresh (dom (<[name' := misn_npc m]> (heap st)))).
    set (portrait' := fresh (dom (textures st))).
    assert (Hn : name' ∉ dom (heap st)) by apply is_fresh.
    assert (Hd : desc' ∉ dom (<[name' := misn_npc m]> (heap st)))
      by apply is_fresh.
    assert (Hp : portrait' ∉ dom (textures st)) by apply is_fresh.
    rewrite !dom_insert_L in Hd.
    eapply M_add; simpl; try reflexivity; unfold owned_strings; simpl.
    + repeat (apply NoDup_cons; split); try apply NoDup_nil_2; set_solver.
    + set_solver.
    + rewrite !dom_insert_L. set_solver.
    + done.
    + by rewrite dom_insert_L.
  - rewrite npc_add_not_landed by done. simpl.
    apply M_leak; simpl; try done; rewrite !dom_insert_L; set_solver.
Qed.

Lemma npc_add_giver_landed_same m st :
  landed (snd (npc_add_giver m st)) = landed st.
Proof.
  unfold npc_add_giver, strdup, gl_dupTexture, npc_add. simpl.
  destruct (landed st) eqn:Hl; simpl; done.
Qed.

Lemma without_npc_Move leaky l1 npc l2 func st :
  npc_array st = Some (l1 ++ npc :: l2) →
  owned_strings npc = [npc_name npc; npc_desc npc; func] →
  Move leaky 0 (summary st) (summary (without_npc npc func (l1 ++ l2) st)).
Proof.
  intros Ha Ho. eapply (M_del _ _ _ l1 npc l2).
  - simpl. unfold records. by rewrite Ha.
  - done.
  - done.
  - rewrite Ho. simpl. rewrite !dom_delete_L. set_solver.
  - simpl. by rewrite dom_delete_L.
Qed.

Lemma npc_rm_event_Move id evt st :
  Move false 0 (summary st) (summary (snd (npc_rm_event id evt st))).
Proof.
  assert (H : npc_rm_event id evt st = npc_rm_event id evt st) by done.
  unfold npc_rm_event at 2, npc_arrayGet in H.
  destruct (npc_array st) as [a |] eqn:Ha; [| rewrite H; apply M_refl].
  destruct (npc_arrayGet_loop a 0 id) as [[i npc] |] eqn:Hget;
    [| rewrite H; apply M_refl].
  apply npc_arrayGet_loop_inv in Hget as (l1 & l2 & -> & -> & Hl1 & Hid).
  unfold npc_type in H.
  destruct (npc_u npc) as [| g | m | e] eqn:Hu; simpl in H;
    try (rewrite H; apply M_refl).
  rewrite (npc_rm_event_found _ _ _ _ _ evt _ Ha Hl1 Hid Hu).
  destruct (evt_id e =? evt); simpl; [| apply M_refl].
  apply without_npc_Move; [done |]. unfold owned_strings. by rewrite Hu.
Qed.

Lemma npc_rm_mission_Move id misn st :
  Move false 0 (summary st) (summary (snd (npc_rm_mission id misn st))).
Proof.
  assert (H : npc_rm_mission id misn st = npc_rm_mission id misn st) by done.
  unfold npc_rm_mission at 2, npc_arrayGet in H.
  destruct (npc_array st) as [a |] eqn:Ha; [| rewrite H; apply M_refl].
  destruct (npc_arrayGet_loop a 0 id) as [[i npc] |] eqn:Hget;
    [| rewrite H; apply M_refl].
  apply npc_arrayGet_loop_inv in Hget as (l1 & l2 & -> & -> & Hl1 & Hid).
  unfold npc_type in H.
  destruct (npc_u npc) as [| g | m | e] eqn:Hu; simpl in H;
    try (rewrite H; apply M_refl).
  rewrite (npc_rm_mission_found _ _ _ _ _ misn _ Ha Hl1 Hid Hu).
  destruct (_ =? _); simpl; [| apply M_refl].
  apply without_npc_Move; [done |]. unfold owned_strings. by rewrite Hu.
Qed.

Lemma npc_approach_Move MISSION_MAX mission_accept i st :
  Move false 0 (summary st)
    (summary (snd (npc_approach MISSION_MAX mission_accept i st))).
Proof.
  unfold npc_approach.
  destruct ((i <? 0) || (i >=? array_size (npc_array st))) eqn:Hb;
    [apply M_refl |].
  destruct (npc_at st i) as [npc |] eqn:Hat; [| apply M_refl].
  destruct (npc_u npc) as [| g | m | e] eqn:Hu; try apply M_refl.
  unfold npc_approach_giver.
  destruct (_ <=? _)%nat; [apply M_refl |].
  destruct (mission_accept g (player_missions st)) as [ret pm].
  destruct ((ret =? 0) || (ret =? 2) || (ret =? -1)); [| apply M_refl].
  unfold npc_at in Hat.
  destruct (npc_array st) as [a |] eqn:Ha; [| done].
  eapply (M_del _ _ _ (take (Z.to_nat i) a) npc (drop (S (Z.to_nat i)) a)).
  - simpl. unfold records. by rewrite Ha, take_drop_middle.
  - simpl. unfold records. rewrite npc_free_array.
    destruct (ret =? -1); simpl; rewrite Ha; simpl;
      unfold array_erase; by rewrite delete_take_drop.
  - simpl. rewrite npc_free_array.
    destruct (ret =? -1); simpl; rewrite Ha; simpl; by rewrite npc_free_idgen.
  - simpl. rewrite npc_free_array.
    destruct (ret =? -1); simpl; rewrite Ha; simpl;
      by rewrite (proj1 (npc_free_summary _ _)).
  - simpl. rewrite npc_free_array.
    destruct (ret =? -1); simpl; rewrite Ha; simpl;
      by rewrite (proj2 (npc_free_summary _ _)).
Qed.

Lemma npc_free_all_summary a st :
  let st' := fold_left (λ st npc, npc_free npc st) a st in
  dom (heap st') = dom (heap st) ∖ list_to_set (a ≫= owned_strings)
  ∧ dom (textures st')
    = dom (textures st) ∖ list_to_set (npc_portrait <$> a).
Proof.
  revert st. induction a as [|npc a IH]; intros st.
  - simpl. split; set_solver.
  - cbn [fold_left]. destruct (IH (npc_free npc st)) as [-> ->].
    destruct (npc_free_summary npc st) as [-> ->].
    rewrite bind_cons, fmap_cons. split; set_solver.
Qed.

Lemma Move_clear leaky l D T g D' T' :
  D' = D ∖ list_to_set (l ≫= owned_strings) →
  T' = T ∖ list_to_set (npc_portrait <$> l) →
  Move leaky 0 (mkSummary l D T g) (mkSummary [] D' T' g).
Proof.
  revert D T D' T'. induction l as [|r l IH]; intros D T D' T' -> ->.
  - apply M_perm; simpl; [done | done | set_solver | set_solver].
  - apply (M_trans _ 0 0 _
             (mkSummary l (D ∖ list_to_set (owned_strings r))
                        (T ∖ {[npc_portrait r]}) g)).
    + by apply (M_del _ _ _ [] r l).
    + apply IH; rewrite ?bind_cons, ?fmap_cons; set_solver.
Qed.

Lemma npc_clear_Move leaky st :
  Move leaky 0 (summary st) (summary (npc_clear st)).
Proof.
  unfold npc_clear. destruct (npc_array st) as [a |] eqn:Ha; [| apply M_refl].
  destruct (npc_free_all_summary a st) as [Hh Ht].
  unfold summary, records. simpl. rewrite Ha. simpl.
  destruct (npc_free_all_fields a st) as (_ & -> & _).
  by apply Move_clear.
Qed.

Lemma npc_freeAll_Move leaky st :
  Move leaky 0 (summary st) (summary (npc_freeAll st)).
Proof.
  pose proof (npc_clear_Move leaky st) as H.
  assert (summary (npc_freeAll st) = summary (npc_clear st)) as ->; [| done].
  unfold summary, npc_freeAll, records. simpl.
  rewrite npc_clear_array. by destruct (npc_array st).
Qed.

Lemma npc_sort_Move leaky st :
  Move leaky 0 (summary st) (summary (npc_sort st)).
Proof.
  apply M_perm; simpl.
  - apply npc_sort_Permutation.
  - apply npc_sort_idgen.
  - unfold npc_sort. by destruct (npc_array st).
  - unfold npc_sort. by destruct (npc_array st).
Qed.

Lemma npc_generate_loop_Move ms st :
  ∃ n, (n ≤ length (fst (npc_generate_loop ms st)))%nat
       ∧ Move (negb (landed st)) n (summary st)
              (summary (snd (npc_generate_loop ms st))).
Proof.
  revert st. induction ms as [|m ms IH]; intros st; simpl.
  - exists 0%nat. split; [done | apply M_refl].
  - pose proof (npc_add_giver_Move m st) as H1.
    pose proof (npc_add_giver_landed_same m st) as Hl.
    destruct (npc_add_giver m st) as [id st1]. simpl in *.
    destruct (IH st1) as (n & Hn & H2). rewrite Hl in H2.
    destruct (npc_generate_loop ms st1) as [ids st2]. simpl in *.
    exists ((if landed st then 1 else 0) + n)%nat. split.
    + destruct (landed st); lia.
    + eapply M_trans; [exact H1 | exact H2].
Qed.

Lemma step_Move MISSION_MAX mission_accept op st :
  ∃ n, (n ≤ length (fst (step MISSION_MAX mission_accept op st)))%nat
       ∧ Move (is_add op && negb (landed st)) n (summary st)
              (summary (snd (step MISSION_MAX mission_accept op st))).
Proof.
  destruct op; simpl.
  - exists 0%nat. split; [done | apply M_refl].
  - pose proof (npc_add_mission_Move misn func name priority portrait desc st).
    destruct (npc_add_mission _ _ _ _ _ _ _). simpl in *.
    eexists. split; [| done]. destruct (landed st); lia.
  - pose proof (npc_add_event_Move evt func name priority portrait desc st).
    destruct (npc_add_event _ _ _ _ _ _ _). simpl in *.
    eexists. split; [| done]. destruct (landed st); lia.
  - exists 0%nat. split; [lia | apply npc_rm_event_Move].
  - exists 0%nat. split; [lia | apply npc_rm_mission_Move].
  - destruct (npc_generate_loop_Move missions st) as (n & Hn & H).
    exists (n + 0)%nat. split; [lia |].
    eapply M_trans; [exact H | apply npc_sort_Move].
  - exists 0%nat. split; [lia | apply npc_clear_Move].
  - exists 0%nat. split; [lia | apply npc_freeAll_Move].
  - exists 0%nat. split; [lia | apply npc_approach_Move].
Qed.

Lemma run_Move MISSION_MAX mission_accept ops st :
  ∃ n, (n ≤ length (fst (run MISSION_MAX mission_accept ops st)))%nat
       ∧ Move (negb (adds_while_landed MISSION_MAX mission_accept ops st)) n
              (summary st)
              (summary (snd (run MISSION_MAX mission_accept ops st))).
Proof.
  revert st. induction ops as [|op ops IH]; intros st.
  - exists 0%nat. split; [done | apply M_refl].
  - rewrite run_cons. cbn [fst snd adds_while_landed].
    destruct (step_Move MISSION_MAX mission_accept op st) as (n1 & Hn1 & H1).
    destruct (IH (snd (step MISSION_MAX mission_accept op st)))
      as (n2 & Hn2 & H2).
    exists (n1 + n2)%nat. split; [rewrite length_app; lia |].
    rewrite negb_andb, negb_orb, negb_involutive.
    by eapply Move_or.
Qed.

(** ** Ownership along a run *)

Lemma registry_owns_summary st : registry_owns st ↔ owns (summary st).
Proof.
  unfold registry_owns, owns, registry_strings, registry_textures,
    s_owned_strings, s_owned_textures. simpl.
  split; intros (HS & HSin & HT & HTin); split_and!; try done.
  - intros p Hp. apply elem_of_dom. auto.
  - intros t Hin. apply elem_of_dom. auto.
  - intros p Hp. apply elem_of_dom. auto.
  - intros t Hin. apply elem_of_dom. auto.
Qed.

Lemma registry_owns_init : registry_owns init_state.
Proof.
  unfold registry_owns, registry_strings, registry_textures. simpl.
  split_and!; [apply NoDup_nil_2 | | apply NoDup_nil_2 |];
    intros ? Hin; by apply elem_of_nil in Hin.
Qed.



Lemma run_owns_init MISSION_MAX mission_accept ops :
  registry_owns (snd (run MISSION_MAX mission_accept ops init_state)).
Proof.
  rewrite registry_owns_summary.
  destruct (run_Move MISSION_MAX mission_accept ops init_state)
    as (n & _ & HM).
  eapply Move_owns; [exact HM |].
  apply registry_owns_summary, registry_owns_init.
Qed.

(** X13. After any run from process start, what [npc_getName],
    [npc_getTexture] and [npc_getDesc] return for an index in bounds is
    never dangling: the name and the description are allocated strings and
    the portrait is a live texture. *)
Theorem run_accessors_live MISSION_MAX mission_accept
    (ops : list Op) (i : Z) :
  let st := snd (run MISSION_MAX mission_accept ops init_state) in
  0 ≤ i < npc_getArraySize st →
  ∃ name tex desc,
    npc_getName i st = Some name ∧ is_Some (heap st !! name)
    ∧ npc_getTexture i st = Some tex ∧ is_Some (textures st !! tex)
    ∧ npc_getDesc i st = Some desc ∧ is_Some (heap st !! desc).
Proof.
  intros st (Hin & npc & Hrec & Hat)%bounds_check_in.
  destruct (run_owns_init MISSION_MAX mission_accept ops)
    as (_ & HS & _ & HT). fold st in HS, HT.
  apply list_elem_of_lookup_2 in Hrec.
  exists (npc_name npc), (npc_portrait npc), (npc_desc npc).
  unfold npc_getName, npc_getTexture, npc_getDesc. rewrite Hin, Hat. simpl.
  split_and!; try done.
  - apply HS, list_elem_of_bind. exists npc. split; [| done].
    unfold owned_strings. apply elem_of_cons. by left.
  - apply HT, list_elem_of_fmap. by exists npc.
  - apply HS, list_elem_of_bind. exists npc. split; [| done].
    unfold owned_strings. apply elem_of_cons. right.
    apply elem_of_cons. by left.
Qed.

Lemma run_accessors_live_witness :
  ∃ name tex desc,
    let st := snd (run 12 (accept_returning 0) sample_ops init_state) in
    npc_getName 1 st = Some name ∧ is_Some (heap st !! name)
    ∧ npc_getTexture 1 st = Some tex ∧ is_Some (textures st !! tex)
    ∧ npc_getDesc 1 st = Some desc ∧ is_Some (heap st !! desc).
Proof.
  apply (run_accessors_live 12 (accept_returning 0) sample_ops 1).
  vm_compute. split; [discriminate | reflexivity].
Defined.

Lemma npc_clear_records st : records (npc_clear st) = [].
Proof.
  unfold records. rewrite npc_clear_array. by destruct (npc_array st).
Qed.

Lemma owns_all_init : owns_all (summary init_state).
Proof.
  split; [apply registry_owns_summary, registry_owns_init |].
  simpl. split; intros ? Hin; rewrite dom_empty_L in Hin; set_solver.
Qed.

(** X14. In a run from process start in which every add is made while
    landed, nothing leaks: at any point the allocated strings and live
    textures are exactly those held by the records, and [npc_clear] at
    the end leaves no string and no texture allocated. *)
Theorem run_no_leak MISSION_MAX mission_accept (ops : list Op) :
  adds_while_landed MISSION_MAX mission_accept ops init_state = true →
  let st := snd (run MISSION_MAX mission_accept ops init_state) in
  (∀ p, is_Some (heap st !! p) ↔ p ∈ registry_strings st)
  ∧ (∀ t, is_Some (textures st !! t) ↔ t ∈ registry_textures st)
  ∧ heap (npc_clear st) = ∅
  ∧ textures (npc_clear st) = ∅.
Proof.
  intros Hadds st.
  destruct (run_Move MISSION_MAX mission_accept ops init_state)
    as (n & _ & HM).
  rewrite Hadds in HM. simpl in HM. fold st in HM.
  pose proof (Move_owns_all _ _ _ HM owns_all_init) as Hall.
  pose proof (Move_owns_all _ _ _ (npc_clear_Move false st) Hall) as Hclr.
  destruct Hall as ((_ & HS & _ & HT) & HS' & HT').
  destruct Hclr as (_ & HSc & HTc).
  unfold s_owned_strings, s_owned_textures in HSc, HTc. simpl in HSc, HTc.
  rewrite npc_clear_records in HSc, HTc.
  split_and!.
  - intros p. rewrite <- elem_of_dom. split; [apply HS' | apply HS].
  - intros t. rewrite <- elem_of_dom. split; [apply HT' | apply HT].
  - apply dom_empty_inv_L, set_eq. intros p. split; [| set_solver].
    intros Hp%HSc. by apply elem_of_nil in Hp.
  - apply dom_empty_inv_L, set_eq. intros p. split; [| set_solver].
    intros Hp%HTc. by apply elem_of_nil in Hp.
Qed.

Lemma run_no_leak_witness :
  heap (npc_clear (snd (run 12 (accept_returning 0) sample_ops init_state)))
  = ∅
  ∧ textures
      (npc_clear (snd (run 12 (accept_returning 0) sample_ops init_state)))
    = ∅.
Proof.
  destruct (run_no_leak 12 (accept_returning 0) sample_ops)
    as (_ & _ & Hh & Ht).
  - vm_compute. reflexivity.
  - split; [exact Hh | exact Ht].
Defined.

(** ** Ids along a run *)

Lemma npc_arrayGet_distinct st i r :
  NoDup (npc_id <$> records st) → records st !! i = Some r →
  npc_arrayGet (npc_id r) st = Some (i, r).
Proof.
  intros Hnd Hr. unfold npc_arrayGet, records in *.
  destruct (npc_array st) as [a |]; simpl in *; [| done].
  pose proof (lookup_lt_Some _ _ _ Hr) as Hlt.
  rewrite <- (take_drop_middle a i r Hr) in Hnd |- *.
  rewrite fmap_app, fmap_cons in Hnd.
  apply NoDup_app in Hnd as (_ & Hne & _).
  rewrite npc_arrayGet_loop_Some; [| | done].
  - rewrite length_take. do 2 f_equal. lia.
  - apply Forall_forall. intros x Hx Heq.
    apply (Hne (npc_id x)).
    + apply list_elem_of_fmap. by exists x.
    + rewrite Heq. apply elem_of_cons. by left.
Qed.

(** X15. In a run from process start with at most [UINT_MAX] add calls,
    the records in the collection carry pairwise distinct ids, all
    non-zero and at most the generator. Hence looking a record up by its
    id finds that very record at its index, and the invalid id 0 finds
    nothing. *)
Theorem run_ids_distinct MISSION_MAX mission_accept (ops : list Op) :
  Z.of_nat (length (fst (run MISSION_MAX mission_accept ops init_state)))
  ≤ UINT_MAX →
  let st := snd (run MISSION_MAX mission_accept ops init_state) in
  NoDup (npc_id <$> records st)
  ∧ Forall (λ r, 0 < npc_id r ≤ npc_array_idgen st) (records st)
  ∧ (∀ i r, records st !! i = Some r →
       npc_arrayGet (npc_id r) st = Some (i, r))
  ∧ npc_arrayGet 0 st = None.
Proof.
  intros Hlen st.
  destruct (run_Move MISSION_MAX mission_accept ops init_state)
    as (n & Hn & HM).
  destruct (Move_ids_distinct _ _ _ _ HM) as [[Hnd Hall] _]; simpl.
  - lia.
  - lia.
  - split; [apply NoDup_nil_2 | apply Forall_nil_2].
  - simpl in Hnd, Hall. fold st in Hnd, Hall. split_and!; try done.
    + intros i r. by apply npc_arrayGet_distinct.
    + apply npc_rm_not_found. eapply Forall_impl; [exact Hall |].
      simpl. intros; lia.
Qed.

Lemma run_ids_distinct_witness :
  let st := snd (run 12 (accept_returning 0) sample_ops init_state) in
  NoDup (npc_id <$> records st) ∧ npc_arrayGet 0 st = None.
Proof.
  destruct (run_ids_distinct 12 (accept_returning 0) sample_ops)
    as (Hnd & _ & _ & H0).
  - vm_compute. discriminate.
  - split; [exact Hnd | exact H0].
Defined.

(** * The other entry points *)

(** ** Lookup by id *)

Lemma npc_arrayGet_loop_None_inv a i id :
  npc_arrayGet_loop a i id = None → Forall (λ n, npc_id n ≠ id) a.
Proof.
  revert i. induction a as [|n a IH]; intros i; simpl; [constructor |].
  destruct (Z.eqb_spec (npc_id n) id); [done |].
  intros H%IH. by constructor.
Qed.

(** X1. [npc_arrayGet] returns the first record that carries the id,
    with its index, and NULL exactly when no record carries it (also when
    the collection is NULL). *)
Theorem npc_arrayGet_first (id : Z) (st : State) :
  (npc_arrayGet id st = None ↔ Forall (λ n, npc_id n ≠ id) (records st))
  ∧ (∀ i npc,
       npc_arrayGet id st = Some (i, npc)
       ↔ records st !! i = Some npc ∧ npc_id npc = id
         ∧ ∀ j r, (j < i)%nat → records st !! j = Some r → npc_id r ≠ id).
Proof.
  split.
  - split; [| apply npc_rm_not_found].
    unfold npc_arrayGet, records.
    destruct (npc_array st) as [a |]; simpl; [| constructor].
    apply npc_arrayGet_loop_None_inv.
  - intros i npc. unfold npc_arrayGet, records.
    destruct (npc_array st) as [a |]; simpl; [| by split; [| intros []]].
    split.
    + intros (l1 & l2 & -> & -> & Hl1 & Hid)%npc_arrayGet_loop_inv.
      simpl. split_and!; [| done |].
      * by apply list_lookup_middle.
      * intros j r Hj Hr. rewrite lookup_app_l in Hr by done.
        apply list_elem_of_lookup_2 in Hr.
        by eapply Forall_forall in Hl1.
    + intros (Hr & Hid & Hfirst).
      pose proof (lookup_lt_Some _ _ _ Hr) as Hlt.
      rewrite <- (take_drop_middle a i npc Hr).
      rewrite npc_arrayGet_loop_Some; [| | done].
      * rewrite length_take. do 2 f_equal. lia.
      * apply Forall_forall. intros x Hx.
        apply list_elem_of_lookup in Hx as [j Hj].
        pose proof (lookup_lt_Some _ _ _ Hj) as Hjlt.
        rewrite length_take in Hjlt.
        apply (Hfirst j); [lia |].
        rewrite lookup_take_lt in Hj by lia. done.
Qed.

(** ** The comparison function *)

(** X2. [npc_compare] is a proper [qsort] comparison: it returns -1, 0 or
    1, swapping the arguments negates the result, it returns 0 exactly on
    equal priorities, and "not greater" is transitive. *)
Theorem npc_compare_laws (a b c : NPC_t) :
  (npc_compare a b = -1 ∨ npc_compare a b = 0 ∨ npc_compare a b = 1)
  ∧ npc_compare b a = - npc_compare a b
  ∧ (npc_compare a b = 0 ↔ npc_priority a = npc_priority b)
  ∧ (npc_compare a b < 0 ↔ npc_priority a < npc_priority b)
  ∧ (npc_compare a b ≤ 0 → npc_compare b c ≤ 0 → npc_compare a c ≤ 0).
Proof.
  unfold npc_compare.
  repeat match goal with
         | |- context [?x >? ?y] => destruct (Z.gtb_spec x y)
         | |- context [?x <? ?y] => destruct (Z.ltb_spec x y)
         end; lia.
Qed.

Lemma npc_compare_laws_witness :
  npc_compare event_npc giver_npc ≤ 0.
Proof.
  destruct (npc_compare_laws event_npc giver_npc giver_npc)
    as (_ & _ & _ & _ & Htrans).
  apply Htrans; vm_compute; discriminate.
Defined.

(** ** Sorting and generating *)

Lemma sorted_priorities_unique (l1 l2 : list NPC_t) :
  l1 ≡ₚ l2 →
  StronglySorted (λ a b, npc_priority a ≤ npc_priority b) l1 →
  StronglySorted (λ a b, npc_priority a ≤ npc_priority b) l2 →
  npc_priority <$> l1 = npc_priority <$> l2.
Proof.
  intros Hp H1 H2. apply (StronglySorted_unique Z.le).
  - eapply StronglySorted_fmap; [| exact H1]. done.
  - eapply StronglySorted_fmap; [| exact H2]. done.
  - by rewrite Hp.
Qed.

(** X3. [npc_sort] only reorders: the records afterwards are a
    permutation of those before, in ascending priority; strings, textures
    and the generator are untouched; the NULL collection stays NULL; and
    sorting again does not change the order of priorities. *)
Theorem npc_sort_reorders (st : State) :
  records (npc_sort st) ≡ₚ records st
  ∧ StronglySorted (λ a b, npc_priority a ≤ npc_priority b)
                   (records (npc_sort st))
  ∧ npc_priority <$> records (npc_sort (npc_sort st))
    = npc_priority <$> records (npc_sort st)
  ∧ heap (npc_sort st) = heap st
  ∧ textures (npc_sort st) = textures st
  ∧ npc_array_idgen (npc_sort st) = npc_array_idgen st
  ∧ (npc_array (npc_sort st) = None ↔ npc_array st = None).
Proof.
  split_and!.
  - apply npc_sort_Permutation.
  - apply npc_sort_sorted.
  - apply sorted_priorities_unique;
      [apply npc_sort_Permutation | apply npc_sort_sorted ..].
  - unfold npc_sort. by destruct (npc_array st).
  - unfold npc_sort. by destruct (npc_array st).
  - apply npc_sort_idgen.
  - unfold npc_sort. by destruct (npc_array st) eqn:Ha.
Qed.

Lemma npc_generate_loop_records ms st :
  ∃ new,
    records (snd (npc_generate_loop ms st)) = records st ++ new
    ∧ length new = (if landed st then length ms else 0%nat)
    ∧ Forall (λ r, npc_type r = NPC_TYPE_GIVER) new.
Proof.
  revert st. induction ms as [|m ms IH]; intros st; simpl.
  - exists []. rewrite app_nil_r. by destruct (landed st).
  - pose proof (npc_add_giver_landed_same m st) as Hl.
    assert (∃ new1, records (snd (npc_add_giver m st)) = records st ++ new1
              ∧ length new1 = (if landed st then 1 else 0)%nat
              ∧ Forall (λ r, npc_type r = NPC_TYPE_GIVER) new1)
      as (new1 & Hr1 & Hlen1 & Hty1).
    { unfold npc_add_giver, strdup, gl_dupTexture.
      destruct (landed st) eqn:Hland.
      - rewrite npc_add_landed by done. simpl. eexists. split; [done |].
        split; [done |]. by constructor.
      - rewrite npc_add_not_landed by done. simpl. exists [].
        by rewrite app_nil_r. }
    destruct (npc_add_giver m st) as [id st1]. simpl in *.
    destruct (IH st1) as (new & Hr & Hlen & Hty). rewrite Hl in Hlen.
    destruct (npc_generate_loop ms st1) as [ids st2]. simpl in *.
    exists (new1 ++ new). rewrite Hr, Hr1, app_assoc. split; [done |].
    split; [| by apply Forall_app].
    rewrite length_app, Hlen1, Hlen. by destruct (landed st).
Qed.

(** X4. [npc_generate] keeps the records that were there: they all occur
    afterwards, as the same values. Landed, the collection grows by one
    giver for each mission generated; not landed, it is only sorted. *)
Theorem npc_generate_keeps (missions : list Mission) (st : State) :
  records st ⊆+ records (npc_generate missions st)
  ∧ (landed st = true →
     length (records (npc_generate missions st))
     = (length (records st) + length missions)%nat
     ∧ ∃ new, records (npc_generate missions st) ≡ₚ records st ++ new
              ∧ Forall (λ r, npc_type r = NPC_TYPE_GIVER) new)
  ∧ (landed st = false →
     records (npc_generate missions st) ≡ₚ records st).
Proof.
  destruct (npc_generate_loop_records missions st) as (new & Hr & Hlen & Hty).
  assert (Hp : records (npc_generate missions st) ≡ₚ records st ++ new).
  { unfold npc_generate. by rewrite npc_sort_Permutation, Hr. }
  split_and!.
  - rewrite Hp. by apply submseteq_inserts_r.
  - intros Hl. rewrite Hl in Hlen. split; [| by exists new].
    by rewrite Hp, length_app, Hlen.
  - intros Hl. rewrite Hl in Hlen.
    apply nil_length_inv in Hlen as ->. by rewrite Hp, app_nil_r.
Qed.

Lemma npc_generate_keeps_witness :
  length (records (npc_generate [bar_mission 5; bar_mission 1] event_state))
  = 3%nat
  ∧ records (npc_generate [bar_mission 5] init_state) ≡ₚ [].
Proof.
  destruct (npc_generate_keeps [bar_mission 5; bar_mission 1] event_state)
    as (_ & Hl & _).
  destruct (npc_generate_keeps [bar_mission 5] init_state) as (_ & _ & Hn).
  split.
  - apply (proj1 (Hl eq_refl)).
  - apply (Hn eq_refl).
Defined.

(** ** Adding an event NPC *)

Lemma npc_add_event_landed evt func name priority portrait desc st :
  landed st = true →
  ∃ name' portrait' desc' func',
    npc_add_event evt func name priority portrait desc st
    = (uint (npc_array_idgen st + 1),
       set_npc_array
         (Some (records st
                ++ [mkNPC (uint (npc_array_idgen st + 1)) priority name'
                          portrait' desc' (u_e (mkNPCevtData evt func'))]))
         (set_npc_array_idgen (uint (npc_array_idgen st + 1))
            (set_heap (<[func' := func]>
                         (<[desc' := desc]> (<[name' := name]> (heap st))))
               (set_textures (<[portrait' := TexImage portrait]> (textures st))
                  st))))
    ∧ heap st !! name' = None ∧ heap st !! desc' = None
    ∧ heap st !! func' = None
    ∧ name' ≠ desc' ∧ name' ≠ func' ∧ desc' ≠ func'
    ∧ textures st !! portrait' = None.
Proof.
  intros Hl. unfold npc_add_event, strdup, gl_newImage.
  rewrite npc_add_landed by done. simpl.
  set (name' := fresh (dom (heap st))).
  set (desc' := fresh (dom (<[name' := name]> (heap st)))).
  set (func' := fresh (dom (<[desc' := desc]> (<[name' := name]> (heap st))))).
  assert (Hn : name' ∉ dom (heap st)) by apply is_fresh.
  assert (Hd : desc' ∉ dom (<[name' := name]> (heap st))) by apply is_fresh.
  assert (Hf : func' ∉ dom (<[desc' := desc]> (<[name' := name]> (heap st))))
    by apply is_fresh.
  rewrite !dom_insert_L, !not_elem_of_union, !not_elem_of_singleton in Hf.
  rewrite !dom_insert_L, !not_elem_of_union, !not_elem_of_singleton in Hd.
  destruct Hf as (Hfd & Hfn & Hf). destruct Hd as (Hdn & Hd).
  exists name', (fresh (dom (textures st))), desc', func'.
  split_and!; try done; try by apply (not_elem_of_dom (D:=gset ptr)).
  apply (not_elem_of_dom (D:=gset ptr)), is_fresh.
Qed.

Lemma getArraySize_records st :
  npc_getArraySize st = Z.of_nat (length (records st)).
Proof. unfold npc_getArraySize, records. by destruct (npc_array st). Qed.

(** X5. After [npc_add_event] while landed the size is one more, and the
    new record is read back at the last index: [npc_getName] and
    [npc_getDesc] return strings that hold the name and description
    given, [npc_getTexture] a texture loaded from the path given. The
    records at the earlier indices read as before, and the strings
    allocated before still hold what they held. *)
Theorem npc_add_event_read_back (evt : Z) (func name : string)
    (priority : Z) (portrait desc : string) (st : State) :
  landed st = true →
  let st' := snd (npc_add_event evt func name priority portrait desc st) in
  let i := npc_getArraySize st in
  npc_getArraySize st' = i + 1
  ∧ (∃ p, npc_getName i st' = Some p ∧ heap st' !! p = Some name)
  ∧ (∃ p, npc_getDesc i st' = Some p ∧ heap st' !! p = Some desc)
  ∧ (∃ t, npc_getTexture i st' = Some t
          ∧ textures st' !! t = Some (TexImage portrait))
  ∧ (∀ j, 0 ≤ j < i →
       npc_getName j st' = npc_getName j st
       ∧ npc_getDesc j st' = npc_getDesc j st
       ∧ npc_getTexture j st' = npc_getTexture j st)
  ∧ (∀ p, is_Some (heap st !! p) → heap st' !! p = heap st !! p).
Proof.
  intros Hl.
  destruct (npc_add_event_landed evt func name priority portrait desc st Hl)
    as (name' & portrait' & desc' & func' & -> & Hn & Hd & Hf
        & Hnd & Hnf & Hdf & Hp).
  cbn [snd]. rewrite !getArraySize_records.
  set (r := mkNPC _ _ _ _ _ _).
  set (st' := set_npc_array _ _).
  assert (Hrec : records st' = records st ++ [r]) by done.
  assert (Hlast : npc_at st' (Z.of_nat (length (records st))) = Some r).
  { unfold npc_at. simpl. rewrite Nat2Z.id.
    by rewrite (list_lookup_middle _ [] r). }
  assert (Hin : (Z.of_nat (length (records st)) <? 0)
                || (Z.of_nat (length (records st))
                    >=? array_size (npc_array st')) = false).
  { apply not_true_iff_false. simpl.
    rewrite orb_true_iff, Z.ltb_lt, Z.geb_le, length_app. simpl. lia. }
  split_and!.
  - rewrite Hrec, length_app. simpl. lia.
  - exists name'. unfold npc_getName. rewrite Hin, Hlast. simpl.
    split; [done |].
    by rewrite lookup_insert_ne, lookup_insert_ne, lookup_insert_eq.
  - exists desc'. unfold npc_getDesc. rewrite Hin, Hlast. simpl.
    split; [done |]. by rewrite lookup_insert_ne, lookup_insert_eq.
  - exists portrait'. unfold npc_getTexture. rewrite Hin, Hlast. simpl.
    split; [done |]. by rewrite lookup_insert_eq.
  - intros j Hj.
    assert (Hat : npc_at st' j = npc_at st j).
    { unfold npc_at, records in *. simpl.
      destruct (npc_array st) as [a |]; simpl in *; [| lia].
      rewrite lookup_app_l by lia. done. }
    assert (Hb : ∀ s, array_size (npc_array s) = Z.of_nat (length (records s))).
    { intros s. unfold records. by destruct (npc_array s). }
    unfold npc_getName, npc_getDesc, npc_getTexture.
    rewrite Hat, !Hb, Hrec, length_app. simpl.
    assert ((j >=? Z.of_nat (length (records st) + 1)) = false) as ->
      by (apply not_true_iff_false; rewrite Z.geb_le; lia).
    assert ((j >=? Z.of_nat (length (records st))) = false) as ->
      by (apply not_true_iff_false; rewrite Z.geb_le; lia).
    done.
  - intros p [s Hs]. simpl.
    rewrite !lookup_insert_ne; [done | congruence ..].
Qed.

Lemma npc_add_event_read_back_witness :
  npc_getArraySize
    (snd (npc_add_event 7 "foo" "Trader" 2 "trader.png" "A trader."
            giver_state)) = 2
  ∧ ∃ p, npc_getName 1
           (snd (npc_add_event 7 "foo" "Trader" 2 "trader.png" "A trader."
                   giver_state)) = Some p
         ∧ heap (snd (npc_add_event 7 "foo" "Trader" 2 "trader.png"
                        "A trader." giver_state)) !! p = Some "Trader".
Proof.
  destruct (npc_add_event_read_back 7 "foo" "Trader" 2 "trader.png"
              "A trader." giver_state eq_refl) as (Hsize & Hname & _).
  split; [exact Hsize | exact Hname].
Defined.

(** ** Adds refused for want of landing *)

Lemma strdup_grows s st :
  size (heap (snd (strdup s st))) = S (size (heap st))
  ∧ heap st ⊆ heap (snd (strdup s st))
  ∧ textures (snd (strdup s st)) = textures st
  ∧ npc_array (snd (strdup s st)) = npc_array st
  ∧ landed (snd (strdup s st)) = landed st.
Proof.
  unfold strdup. simpl.
  assert (heap st !! fresh (dom (heap st)) = None)
    by apply (not_elem_of_dom (D:=gset ptr)), is_fresh.
  split_and!; try done.
  - by apply map_size_insert_None.
  - by apply insert_subseteq.
Qed.

Lemma texture_grows (x : glTexture) st :
  size (<[fresh (dom (textures st)) := x]> (textures st))
  = S (size (textures st)).
Proof.
  apply map_size_insert_None.
  apply (not_elem_of_dom (D:=gset ptr)), is_fresh.
Qed.

(** One [strdup] of the goal: name its result and record what it did. *)
Ltac strdup_step s st p st' H :=
  pose proof (strdup_grows s st) as H;
  destruct (strdup s st) as [p st']; cbn [fst snd] in H;
  cbv beta iota zeta.

(** X6. An add made while not landed returns 0 and appends nothing, yet
    the copies it made beforehand stay allocated: three more strings and
    one more texture for [npc_add_event] and [npc_add_mission], two more
    strings and one more texture for [npc_add_giver]. The caller gets no
    handle on them: they leak. *)
Theorem refused_add_leaks (evt : Z) (misn : ptr) (g : Mission)
    (func name : string) (priority : Z) (portrait desc : string)
    (st : State) :
  landed st = false →
  (let r := npc_add_event evt func name priority portrait desc st in
   fst r = 0 ∧ npc_array (snd r) = npc_array st
   ∧ size (heap (snd r)) = (size (heap st) + 3)%nat
   ∧ size (textures (snd r)) = (size (textures st) + 1)%nat
   ∧ heap st ⊆ heap (snd r))
  ∧ (let r := npc_add_mission misn func name priority portrait desc st in
     fst r = 0 ∧ npc_array (snd r) = npc_array st
     ∧ size (heap (snd r)) = (size (heap st) + 3)%nat
     ∧ size (textures (snd r)) = (size (textures st) + 1)%nat
     ∧ heap st ⊆ heap (snd r))
  ∧ (let r := npc_add_giver g st in
     fst r = 0 ∧ npc_array (snd r) = npc_array st
     ∧ size (heap (snd r)) = (size (heap st) + 2)%nat
     ∧ size (textures (snd r)) = (size (textures st) + 1)%nat
     ∧ heap st ⊆ heap (snd r)).
Proof.
  intros Hl. split; [| split]; cbv zeta.
  - unfold npc_add_event, gl_newImage.
    strdup_step name st pn st1 H1.
    destruct H1 as (Hs1 & Hsub1 & Ht1 & Ha1 & Hl1).
    pose proof (texture_grows (TexImage portrait) st1) as Ht2.
    set (st2 := set_textures _ st1) in *.
    strdup_step desc st2 pd st3 H3.
    destruct H3 as (Hs3 & Hsub3 & Ht3 & Ha3 & Hl3).
    strdup_step func st3 pf st4 H4.
    destruct H4 as (Hs4 & Hsub4 & Ht4 & Ha4 & Hl4).
    rewrite npc_add_not_landed by (by rewrite Hl4, Hl3; simpl; rewrite Hl1).
    cbn [fst snd]. split_and!; [done | | | |].
    + by rewrite Ha4, Ha3.
    + rewrite Hs4, Hs3. simpl. rewrite Hs1. lia.
    + rewrite Ht4, Ht3. simpl. rewrite Ht2, Ht1. lia.
    + etrans; [exact Hsub1 |]. etrans; [| exact Hsub4]. exact Hsub3.
  - unfold npc_add_mission, gl_newImage.
    strdup_step name st pn st1 H1.
    destruct H1 as (Hs1 & Hsub1 & Ht1 & Ha1 & Hl1).
    pose proof (texture_grows (TexImage portrait) st1) as Ht2.
    set (st2 := set_textures _ st1) in *.
    strdup_step desc st2 pd st3 H3.
    destruct H3 as (Hs3 & Hsub3 & Ht3 & Ha3 & Hl3).
    strdup_step func st3 pf st4 H4.
    destruct H4 as (Hs4 & Hsub4 & Ht4 & Ha4 & Hl4).
    rewrite npc_add_not_landed by (by rewrite Hl4, Hl3; simpl; rewrite Hl1).
    cbn [fst snd]. split_and!; [done | | | |].
    + by rewrite Ha4, Ha3.
    + rewrite Hs4, Hs3. simpl. rewrite Hs1. lia.
    + rewrite Ht4, Ht3. simpl. rewrite Ht2, Ht1. lia.
    + etrans; [exact Hsub1 |]. etrans; [| exact Hsub4]. exact Hsub3.
  - unfold npc_add_giver, gl_dupTexture.
    strdup_step (misn_npc g) st pn st1 H1.
    destruct H1 as (Hs1 & Hsub1 & Ht1 & Ha1 & Hl1).
    pose proof (texture_grows (TexDup (misn_portrait g)) st1) as Ht2.
    set (st2 := set_textures _ st1) in *.
    strdup_step (misn_desc g) st2 pd st3 H3.
    destruct H3 as (Hs3 & Hsub3 & Ht3 & Ha3 & Hl3).
    rewrite npc_add_not_landed by (by rewrite Hl3; simpl; rewrite Hl1).
    cbn [fst snd]. split_and!; [done | | | |].
    + by rewrite Ha3.
    + rewrite Hs3. simpl. rewrite Hs1. lia.
    + rewrite Ht3. simpl. rewrite Ht2, Ht1. lia.
    + etrans; [exact Hsub1 | exact Hsub3].
Qed.

Lemma refused_add_leaks_witness :
  fst (npc_add_event 7 "foo" "Trader" 2 "trader.png" "A trader." init_state)
  = 0
  ∧ size (heap (snd (npc_add_event 7 "foo" "Trader" 2 "trader.png"
                       "A trader." init_state))) = 3%nat.
Proof.
  destruct (refused_add_leaks 7 5%positive (bar_mission 5) "foo" "Trader" 2
              "trader.png" "A trader." init_state eq_refl)
    as ((Hret & _ & Hsize & _) & _).
  split; [exact Hret | exact Hsize].
Defined.

(** ** Adding and removing again *)

(** X7. Adding an event NPC while landed and then removing it by the id
    returned and its event puts everything back: the records, the strings
    and the textures are exactly those from before the add. Only the
    generator has moved on, and the collection exists even if it was NULL
    before. The id must not be carried by an older record, which holds as
    long as the generator has not wrapped around. *)
Theorem npc_add_rm_event_round_trip (evt : Z) (func name : string)
    (priority : Z) (portrait desc : string) (st : State) :
  landed st = true →
  Forall (λ r, npc_id r ≠ uint (npc_array_idgen st + 1)) (records st) →
  let r := npc_add_event evt func name priority portrait desc st in
  npc_rm_event (fst r) evt (snd r)
  = (0, set_npc_array (Some (records st))
          (set_npc_array_idgen (fst r) st)).
Proof.
  intros Hl Hfresh.
  destruct (npc_add_event_landed evt func name priority portrait desc st Hl)
    as (name' & portrait' & desc' & func' & -> & Hn & Hd & Hf
        & Hnd & Hnf & Hdf & Hp).
  cbn [fst snd].
  erewrite (npc_rm_event_found (records st) _ [] (mkNPCevtData evt func'));
    [| done | done | done | done].
  simpl. rewrite Z.eqb_refl, app_nil_r.
  unfold without_npc. simpl.
  assert (delete func' (delete desc' (delete name'
            (<[func' := func]> (<[desc' := desc]> (<[name' := name]> (heap st))))))
          = heap st) as ->.
  { apply map_eq. intros k.
    destruct (decide (k = func')) as [-> |];
      [by rewrite lookup_delete_eq |].
    rewrite lookup_delete_ne by done.
    destruct (decide (k = desc')) as [-> |];
      [by rewrite lookup_delete_eq |].
    rewrite lookup_delete_ne by done.
    destruct (decide (k = name')) as [-> |];
      [by rewrite lookup_delete_eq |].
    rewrite lookup_delete_ne by done.
    by rewrite !lookup_insert_ne. }
  assert (delete portrait' (<[portrait' := TexImage portrait]> (textures st))
          = textures st) as ->.
  { by apply delete_insert_id. }
  by destruct st.
Qed.

Lemma npc_add_rm_event_round_trip_witness :
  npc_rm_event 2 7
    (snd (npc_add_event 7 "foo" "Trader" 2 "trader.png" "A trader."
            giver_state))
  = (0, set_npc_array (Some [giver_npc]) (set_npc_array_idgen 2 giver_state)).
Proof.
  apply (npc_add_rm_event_round_trip 7 "foo" "Trader" 2 "trader.png"
           "A trader." giver_state eq_refl).
  vm_compute. repeat constructor. discriminate.
Defined.

(** ** What [npc_approach] returns *)

(** X8. [npc_approach] returns -1, 0 or 1, and it returns 1 exactly when
    it destroyed a record: unless it returns 1 the collection, the strings
    and the textures are what they were; when it returns 1 the record at
    the index was a giver and the size is one less. An index out of
    bounds gives -1 with the state untouched. The generator and the landed
    flag are never changed. *)
Theorem npc_approach_result MISSION_MAX mission_accept
    (i : Z) (st : State) :
  let r := npc_approach MISSION_MAX mission_accept i st in
  (fst r = -1 ∨ fst r = 0 ∨ fst r = 1)
  ∧ (fst r ≠ 1 →
     npc_array (snd r) = npc_array st ∧ heap (snd r) = heap st
     ∧ textures (snd r) = textures st)
  ∧ (fst r = 1 →
     npc_getArraySize (snd r) = npc_getArraySize st - 1
     ∧ ∃ npc g, records st !! Z.to_nat i = Some npc ∧ npc_u npc = u_g g)
  ∧ (i < 0 ∨ npc_getArraySize st ≤ i → r = (-1, st))
  ∧ npc_array_idgen (snd r) = npc_array_idgen st
  ∧ landed (snd r) = landed st.
Proof.
  cbv zeta. split_and!.
  - unfold npc_approach, npc_approach_giver.
    repeat case_match; simpl; auto.
  - unfold npc_approach, npc_approach_giver.
    repeat case_match; simpl; done.
  - unfold npc_approach.
    destruct ((i <? 0) || (i >=? array_size (npc_array st))) eqn:Hb;
      [done |].
    destruct (npc_at st i) as [npc |] eqn:Hat; [| done].
    destruct (npc_u npc) as [| g | m | e] eqn:Hu; try done.
    unfold npc_approach_giver.
    destruct (_ <=? _)%nat; [done |].
    destruct (mission_accept g (player_missions st)) as [ret pm].
    destruct ((ret =? 0) || (ret =? 2) || (ret =? -1)); [| done].
    intros _. unfold npc_at, records, npc_getArraySize in *.
    destruct (npc_array st) as [a |] eqn:Ha; [| done]. simpl.
    rewrite npc_free_array.
    split; [| by exists npc, g].
    pose proof (lookup_lt_Some _ _ _ Hat) as Hlt.
    destruct (ret =? -1); simpl; rewrite Ha; simpl;
      unfold array_erase; rewrite length_delete by eauto; lia.
  - intros Hout%bounds_check_out. unfold npc_approach. by rewrite Hout.
  - apply npc_approach_idgen.
  - unfold npc_approach, npc_approach_giver.
    repeat case_match; simpl; try done;
      rewrite ?npc_free_landed; try done;
      match goal with
      | H : npc_array (npc_free _ _) = _ |- _ => rewrite npc_free_array in H
      end; simpl in *; done.
Qed.

Lemma npc_approach_result_witness :
  npc_approach 12 (accept_returning 0) 5 giver_state = (-1, giver_state)
  ∧ npc_getArraySize (snd (npc_approach 12 (accept_returning 0) 0 giver_state))
    = npc_getArraySize giver_state - 1.
Proof.
  split.
  - apply (npc_approach_result 12 (accept_returning 0) 5 giver_state).
    right. vm_compute. discriminate.
  - destruct (npc_approach_result 12 (accept_returning 0) 0 giver_state)
      as (_ & _ & Hone & _).
    apply Hone. vm_compute. reflexivity.
Defined.

(** X9. The calls [npc_approach] makes for the record at an index in
    bounds. A mission NPC: [misn_run] once on the stored mission and
    callback, result 0. An event NPC: [event_run] once on the stored event
    and callback, result 0. An invalid record: a warning, result -1. A
    giver, when a player slot is free: [mission_accept] once, then
    [mission_cleanup] once if it returned 0 or 2, twice if it returned -1
    (once directly and once more through [npc_free]), and not at all
    otherwise; the player's slots are as [mission_accept] left them. *)
Theorem npc_approach_calls MISSION_MAX mission_accept
    (i : Z) (st : State) (npc : NPC_t) :
  0 ≤ i < npc_getArraySize st →
  records st !! Z.to_nat i = Some npc →
  let r := npc_approach MISSION_MAX mission_accept i st in
  match npc_u npc with
  | u_m m => r = (0, emit (EvMisnRun (m_misn m) (m_func m)) st)
  | u_e e => r = (0, emit (EvEventRun (evt_id e) (evt_func e)) st)
  | u_null => r = (-1, emit (EvWarn "Unknown NPC type!") st)
  | u_g g =>
      ∀ k ret pm,
        (k < MISSION_MAX)%nat → player_missions st k = None →
        mission_accept g (player_missions st) = (ret, pm) →
        player_missions (snd r) = pm
        ∧ log (snd r)
          = log st ++ EvMissionAccept g
              :: (if ret =? -1
                  then [EvMissionCleanup (npc_id npc);
                        EvMissionCleanup (npc_id npc)]
                  else if (ret =? 0) || (ret =? 2)
                       then [EvMissionCleanup (npc_id npc)]
                       else [])
  end.
Proof.
  intros Hi Hnpc. cbv zeta.
  destruct (npc_u npc) as [| g | m | e] eqn:Hu.
  - destruct (bounds_check_in i st Hi) as (Hin & npc' & Hrec & Hat).
    assert (npc' = npc) as -> by congruence.
    unfold npc_approach. by rewrite Hin, Hat, Hu.
  - intros k ret pm Hk Hfree Hacc.
    rewrite (npc_approach_giver_at _ _ _ _ _ _ Hi Hnpc Hu).
    unfold npc_approach_giver.
    pose proof (free_slot_loop_free (player_missions st) 0 MISSION_MAX k
                  ltac:(lia) Hfree) as Hslot.
    rewrite (proj2 (Nat.leb_gt _ _)) by lia.
    rewrite Hacc.
    destruct (Z.eqb_spec ret (-1)) as [-> | Hm1]; simpl.
    + unfold npc_free. rewrite Hu. simpl.
      unfold records in Hnpc.
      destruct (npc_array st); simpl; [| done].
      by rewrite <- !app_assoc.
    + rewrite orb_false_r.
      destruct ((ret =? 0) || (ret =? 2)); simpl; [| done].
      unfold npc_free. rewrite Hu. simpl.
      unfold records in Hnpc.
      destruct (npc_array st); simpl; [| done].
      by rewrite <- !app_assoc.
  - destruct (bounds_check_in i st Hi) as (Hin & npc' & Hrec & Hat).
    assert (npc' = npc) as -> by congruence.
    unfold npc_approach. by rewrite Hin, Hat, Hu.
  - destruct (bounds_check_in i st Hi) as (Hin & npc' & Hrec & Hat).
    assert (npc' = npc) as -> by congruence.
    unfold npc_approach. by rewrite Hin, Hat, Hu.
Qed.

Lemma npc_approach_calls_witness :
  npc_approach 12 (accept_returning 0) 0 event_state
  = (0, emit (EvEventRun 7 3%positive) event_state)
  ∧ log (snd (npc_approach 12 (accept_returning (-1)) 0 giver_state))
    = [EvMissionAccept (bar_mission 5); EvMissionCleanup 1;
       EvMissionCleanup 1].
Proof.
  split.
  - apply (npc_approach_calls 12 (accept_returning 0) 0 event_state event_npc).
    + vm_compute. split; [discriminate | reflexivity].
    + vm_compute. reflexivity.
  - assert (Hi : 0 ≤ 0 < npc_getArraySize giver_state)
      by (vm_compute; split; [discriminate | reflexivity]).
    assert (Hnpc : records giver_state !! Z.to_nat 0 = Some giver_npc)
      by (vm_compute; reflexivity).
    pose proof (npc_approach_calls 12 (accept_returning (-1)) 0 giver_state
                  giver_npc Hi Hnpc) as H.
    simpl in H.
    destruct (H 0%nat (-1) (player_missions giver_state)) as [_ Hlog];
      [lia | reflexivity | reflexivity |].
    exact Hlog.
Defined.

(** ** Clearing *)

Lemma npc_free_lookup npc st :
  (∀ p, p ∉ owned_strings npc →
     heap (npc_free npc st) !! p = heap st !! p)
  ∧ (∀ t, t ≠ npc_portrait npc →
       textures (npc_free npc st) !! t = textures st !! t).
Proof.
  unfold npc_free, owned_strings. split.
  - intros p Hp.
    destruct (npc_u npc); simpl in *;
      rewrite ?not_elem_of_cons in Hp;
      rewrite !lookup_delete_ne; naive_solver.
  - intros t Ht. destruct (npc_u npc); simpl; by rewrite lookup_delete_ne.
Qed.

Lemma npc_free_all_lookup a st :
  let st' := fold_left (λ st npc, npc_free npc st) a st in
  (∀ p, p ∉ a ≫= owned_strings → heap st' !! p = heap st !! p)
  ∧ (∀ t, t ∉ npc_portrait <$> a → textures st' !! t = textures st !! t).
Proof.
  revert st. induction a as [|npc a IH]; intros st; [done |].
  cbn [fold_left]. destruct (IH (npc_free npc st)) as [IHh IHt].
  destruct (npc_free_lookup npc st) as [Hh Ht].
  split.
  - intros p Hp. rewrite bind_cons, not_elem_of_app in Hp.
    rewrite IHh, Hh; tauto.
  - intros t Hin. rewrite fmap_cons, not_elem_of_cons in Hin.
    rewrite IHt, Ht; tauto.
Qed.

(** X10. [npc_clear] releases what the records hold and nothing else:
    afterwards no string and no portrait of any record is allocated, every
    other string and texture is as it was, the collection is empty, and
    the generator and the landed flag are unchanged. *)
Theorem npc_clear_releases (st : State) :
  (∀ r p, r ∈ records st → p ∈ owned_strings r →
     heap (npc_clear st) !! p = None)
  ∧ (∀ r, r ∈ records st →
       textures (npc_clear st) !! npc_portrait r = None)
  ∧ (∀ p, p ∉ registry_strings st →
       heap (npc_clear st) !! p = heap st !! p)
  ∧ (∀ t, t ∉ registry_textures st →
       textures (npc_clear st) !! t = textures st !! t)
  ∧ records (npc_clear st) = []
  ∧ npc_array_idgen (npc_clear st) = npc_array_idgen st
  ∧ landed (npc_clear st) = landed st.
Proof.
  split_and!; [| | | | apply npc_clear_records | apply npc_clear_idgen
               | apply npc_clear_landed];
    unfold npc_clear, registry_strings, registry_textures, records;
    destruct (npc_array st) as [a |] eqn:Ha; simpl; try done.
  - intros r p Hr Hp. apply (not_elem_of_dom (D:=gset ptr)).
    rewrite (proj1 (npc_free_all_summary a st)).
    apply not_elem_of_difference. right.
    apply elem_of_list_to_set, list_elem_of_bind. eauto.
  - intros r p Hr. by apply elem_of_nil in Hr.
  - intros r Hr. apply (not_elem_of_dom (D:=gset ptr)).
    rewrite (proj2 (npc_free_all_summary a st)).
    apply not_elem_of_difference. right.
    apply elem_of_list_to_set, list_elem_of_fmap. eauto.
  - intros r Hr. by apply elem_of_nil in Hr.
  - apply npc_free_all_lookup.
  - apply npc_free_all_lookup.
Qed.

Lemma npc_clear_releases_witness :
  heap (npc_clear event_state) !! 1%positive = None
  ∧ heap (npc_clear event_state) !! 3%positive = None.
Proof.
  destruct (npc_clear_releases event_state) as (Hs & _).
  assert (Hr : event_npc ∈ records event_state)
    by (vm_compute; apply list_elem_of_here).
  split.
  - apply (Hs event_npc 1%positive Hr). vm_compute. apply list_elem_of_here.
  - apply (Hs event_npc 3%positive Hr). vm_compute.
    do 2 apply list_elem_of_further. apply list_elem_of_here.
Defined.

Lemma npc_clear_empty st : npc_array st = Some [] → npc_clear st = st.
Proof. intros H. unfold npc_clear. rewrite H. destruct st; simpl in *. by subst. Qed.

(** X11. How [npc_clear] and [npc_freeAll] compose. Each is idempotent;
    [npc_freeAll] absorbs an [npc_clear] before or after it; on the NULL
    collection [npc_clear] does nothing; [npc_clear] keeps the backing
    storage (the collection is NULL afterwards only if it was before),
    [npc_freeAll] always leaves NULL. *)
Theorem npc_clear_compose (st : State) :
  npc_clear (npc_clear st) = npc_clear st
  ∧ npc_freeAll (npc_freeAll st) = npc_freeAll st
  ∧ npc_freeAll (npc_clear st) = npc_freeAll st
  ∧ npc_clear (npc_freeAll st) = npc_freeAll st
  ∧ (npc_array st = None → npc_clear st = st)
  ∧ (npc_array (npc_clear st) = None ↔ npc_array st = None)
  ∧ npc_array (npc_freeAll st) = None.
Proof.
  assert (Hcc : npc_clear (npc_clear st) = npc_clear st).
  { destruct (npc_array st) as [a |] eqn:Ha.
    - apply npc_clear_empty. by rewrite npc_clear_array, Ha.
    - unfold npc_clear. by rewrite Ha, Ha. }
  assert (Hnull : ∀ s, npc_array s = None → npc_clear s = s).
  { intros s Hs. unfold npc_clear. by rewrite Hs. }
  split_and!.
  - done.
  - unfold npc_freeAll. by rewrite (Hnull (set_npc_array None _)).
  - unfold npc_freeAll. by rewrite Hcc.
  - by apply Hnull.
  - apply Hnull.
  - rewrite npc_clear_array. by destruct (npc_array st).
  - done.
Qed.

Lemma npc_clear_compose_witness : npc_clear init_state = init_state.
Proof.
  apply (npc_clear_compose init_state). reflexivity.
Defined.

(** ** What a removal releases *)

Lemma map_size_delete_S {A} (m : gmap ptr A) i :
  is_Some (m !! i) → size m = S (size (delete i m)).
Proof.
  intros [y Hy]. rewrite <- (insert_id m i y Hy) at 1.
  rewrite <- insert_delete_eq. apply map_size_insert_None, lookup_delete_eq.
Qed.

Lemma npc_rm_ok_inv id st st' :
  (∃ evt, npc_rm_event id evt st = (0, st'))
  ∨ (∃ misn, npc_rm_mission id misn st = (0, st')) →
  ∃ l1 npc l2 func,
    npc_array st = Some (l1 ++ npc :: l2)
    ∧ owned_strings npc = [npc_name npc; npc_desc npc; func]
    ∧ st' = without_npc npc func (l1 ++ l2) st.
Proof.
  intros [[evt H] | [misn H]].
  - pose proof H as H0. unfold npc_rm_event, npc_arrayGet in H0.
    destruct (npc_array st) as [a |] eqn:Ha; [| done].
    destruct (npc_arrayGet_loop a 0 id) as [[i npc] |] eqn:Hget; [| done].
    apply npc_arrayGet_loop_inv in Hget as (l1 & l2 & -> & -> & Hl1 & Hid).
    unfold npc_type in H0.
    destruct (npc_u npc) as [| g | m | e] eqn:Hu; simpl in H0; try done.
    rewrite (npc_rm_event_found _ _ _ _ _ evt _ Ha Hl1 Hid Hu) in H.
    destruct (evt_id e =? evt); [| done].
    injection H as <-. exists l1, npc, l2, (evt_func e).
    unfold owned_strings. by rewrite Hu.
  - pose proof H as H0. unfold npc_rm_mission, npc_arrayGet in H0.
    destruct (npc_array st) as [a |] eqn:Ha; [| done].
    destruct (npc_arrayGet_loop a 0 id) as [[i npc] |] eqn:Hget; [| done].
    apply npc_arrayGet_loop_inv in Hget as (l1 & l2 & -> & -> & Hl1 & Hid).
    unfold npc_type in H0.
    destruct (npc_u npc) as [| g | m | e] eqn:Hu; simpl in H0; try done.
    rewrite (npc_rm_mission_found _ _ _ _ _ misn _ Ha Hl1 Hid Hu) in H.
    destruct (_ =? _); [| done].
    injection H as <-. exists l1, npc, l2, (m_func m).
    unfold owned_strings. by rewrite Hu.
Qed.

(** X16. When the registry owns its resources (as it does after any run,
    X12), a removal that succeeds releases exactly three allocated
    strings (name, description, callback name) and one live texture, and
    the registry still owns the resources of the records that remain. *)
Theorem npc_rm_releases (id : Z) (st st' : State) :
  registry_owns st →
  (∃ evt, npc_rm_event id evt st = (0, st'))
  ∨ (∃ misn, npc_rm_mission id misn st = (0, st')) →
  (size (heap st') + 3 = size (heap st))%nat
  ∧ (size (textures st') + 1 = size (textures st))%nat
  ∧ registry_owns st'.
Proof.
  intros Hown (l1 & npc & l2 & func & Ha & Ho & ->)%npc_rm_ok_inv.
  split_and!.
  - destruct Hown as (HS & HSin & _).
    unfold registry_strings, records in HS, HSin. rewrite Ha in HS, HSin.
    simpl in HS, HSin. rewrite bind_middle, Ho in HS, HSin.
    apply NoDup_app in HS as (_ & _ & HS).
    apply NoDup_app in HS as (HS & _ & _).
    apply NoDup_cons in HS as (Hn & HS).
    apply NoDup_cons in HS as (Hd & _).
    rewrite !not_elem_of_cons in Hn. rewrite not_elem_of_cons in Hd.
    simpl.
    rewrite (map_size_delete_S (heap st) (npc_name npc)).
    2:{ apply HSin. rewrite !elem_of_app, !elem_of_cons. tauto. }
    rewrite (map_size_delete_S (delete (npc_name npc) (heap st))
               (npc_desc npc)).
    2:{ rewrite lookup_delete_ne by naive_solver.
        apply HSin. rewrite !elem_of_app, !elem_of_cons. tauto. }
    rewrite (map_size_delete_S
               (delete (npc_desc npc) (delete (npc_name npc) (heap st)))
               func).
    2:{ rewrite !lookup_delete_ne by naive_solver.
        apply HSin. rewrite !elem_of_app, !elem_of_cons. tauto. }
    lia.
  - destruct Hown as (_ & _ & _ & HTin).
    simpl. rewrite (map_size_delete_S (textures st) (npc_portrait npc));
      [lia |].
    apply HTin. unfold registry_textures, records. rewrite Ha. simpl.
    rewrite fmap_app, fmap_cons, elem_of_app, elem_of_cons. tauto.
  - apply registry_owns_summary.
    eapply Move_owns; [| by apply registry_owns_summary].
    by apply (without_npc_Move false).
Qed.

Lemma npc_rm_releases_witness :
  (size (heap (snd (npc_rm_event 1 7 event_state))) + 3
   = size (heap event_state))%nat.
Proof.
  destruct (npc_rm_releases 1 event_state (snd (npc_rm_event 1 7 event_state)))
    as (Hs & _).
  - apply (run_owns_init 12 (accept_returning 0) [OpLand true; add_op]).
  - left. exists 7. vm_compute. reflexivity.
  - exact Hs.
Defined.

(** ** The bulk accessors *)

Lemma npc_getNameArray_loop_spec a st :
  (∀ r, r ∈ a → is_Some (heap st !! npc_name r)) →
  ∃ names st',
    npc_getNameArray_loop a st = Some (names, st')
    ∧ length names = length a
    ∧ NoDup names
    ∧ (∀ p, p ∈ names → heap st !! p = None)
    ∧ (∀ k r p, a !! k = Some r → names !! k = Some p →
         heap st' !! p = heap st !! npc_name r)
    ∧ heap st ⊆ heap st'
    ∧ st' = set_heap (heap st') st.
Proof.
  revert st. induction a as [|r a IH]; intros st Hlive.
  - exists [], st. simpl. split_and!; try done.
    + apply NoDup_nil_2.
    + intros p Hp. by apply elem_of_nil in Hp.
    + by destruct st.
  - destruct (Hlive r) as [s Hs]; [apply list_elem_of_here |].
    simpl. unfold strdup_at. rewrite Hs. unfold strdup.
    set (p := fresh (dom (heap st))).
    assert (Hp : heap st !! p = None)
      by apply (not_elem_of_dom (D:=gset ptr)), is_fresh.
    set (st1 := set_heap (<[p := s]> (heap st)) st).
    assert (Hsub1 : heap st ⊆ heap st1) by (by apply insert_subseteq).
    destruct (IH st1) as (names & st' & -> & Hlen & Hnd & Hfresh & Hcont
                          & Hsub & Hst').
    { intros r' Hr'. destruct (Hlive r') as [s' Hs'];
        [by apply list_elem_of_further |].
      exists s'. by eapply lookup_weaken. }
    exists (p :: names), st'. split_and!.
    + done.
    + simpl. by rewrite Hlen.
    + apply NoDup_cons. split; [| done].
      intros Hin%Hfresh. simpl in Hin. by rewrite lookup_insert_eq in Hin.
    + intros q [-> | Hq]%elem_of_cons; [done |].
      apply Hfresh in Hq.
      destruct (heap st !! q) as [x |] eqn:Hx; [| done].
      pose proof (lookup_weaken _ _ _ _ Hx Hsub1). congruence.
    + intros [|k] r' q; simpl.
      * intros [= <-] [= <-]. rewrite Hs.
        eapply lookup_weaken; [| exact Hsub]. simpl.
        apply lookup_insert_eq.
      * intros Hr' Hq. rewrite (Hcont k r' q Hr' Hq).
        destruct (Hlive r') as [s' Hs'].
        { apply list_elem_of_further. by eapply list_elem_of_lookup_2. }
        rewrite Hs'. by eapply lookup_weaken.
    + by etrans.
    + rewrite Hst'. by destruct st.
Qed.

Lemma count_bound n st a :
  npc_array st = Some a →
  Z.of_nat (Z.to_nat (Z.min n (array_size (npc_array st))))
  = Z.max 0 (Z.min n (npc_getArraySize st))
  ∧ (Z.to_nat (Z.min n (array_size (npc_array st))) ≤ length a)%nat.
Proof.
  intros Ha. unfold npc_getArraySize. rewrite Ha. simpl. lia.
Qed.

(** X17. [npc_getNameArray] on the NULL collection writes nothing and
    returns 0. Otherwise, when the records' names are allocated (as they
    are after any run, X12), it returns the number of records limited by
    [n] (0 for a negative [n]) and writes that many names; entry [k] is a
    freshly allocated string, distinct from all others, whose contents
    are those of the name [npc_getName k] returns. The strings allocated
    before keep their contents; the records and textures are untouched. *)
Theorem npc_getNameArray_spec (n : Z) (st : State) :
  (npc_array st = None → npc_getNameArray n st = Some (0, [], st))
  ∧ ((∀ r, r ∈ records st → is_Some (heap st !! npc_name r)) →
     ∃ names st',
       npc_getNameArray n st
       = Some (Z.max 0 (Z.min n (npc_getArraySize st)), names, st')
       ∧ Z.of_nat (length names) = Z.max 0 (Z.min n (npc_getArraySize st))
       ∧ NoDup names
       ∧ (∀ p, p ∈ names → heap st !! p = None)
       ∧ (∀ k p, names !! k = Some p →
            ∃ q, npc_getName (Z.of_nat k) st = Some q
                 ∧ heap st' !! p = heap st !! q)
       ∧ heap st ⊆ heap st'
       ∧ npc_array st' = npc_array st
       ∧ textures st' = textures st).
Proof.
  split.
  - intros Ha. unfold npc_getNameArray. by rewrite Ha.
  - intros Hlive. unfold npc_getNameArray.
    destruct (npc_array st) as [a |] eqn:Ha.
    + destruct (count_bound n st a Ha) as [Hc Hle].
      rewrite Ha in Hc, Hle.
      set (count := Z.to_nat (Z.min n (array_size (Some a)))) in *.
      destruct (npc_getNameArray_loop_spec (take count a) st)
        as (names & st' & -> & Hlen & Hnd & Hfresh & Hcont & Hsub & Hst').
      { intros r Hr. apply Hlive. unfold records. rewrite Ha. simpl.
        apply elem_of_take in Hr as (j & Hj & _).
        by eapply list_elem_of_lookup_2. }
      rewrite length_take in Hlen.
      exists names, st'. rewrite <- Hc. split_and!; try done.
      * f_equal. lia.
      * intros k p Hp.
        pose proof (lookup_lt_Some _ _ _ Hp) as Hk.
        destruct (lookup_lt_is_Some_2 a k) as [r Hr]; [lia |].
        exists (npc_name r). split.
        -- unfold npc_getName, npc_at. rewrite Ha. simpl.
           rewrite Nat2Z.id, Hr. simpl.
           assert ((Z.of_nat k <? 0) || (Z.of_nat k >=? Z.of_nat (length a))
                   = false) as ->; [| done].
           apply not_true_iff_false.
           rewrite orb_true_iff, Z.ltb_lt, Z.geb_le. lia.
        -- apply (Hcont k r p); [| done].
           rewrite lookup_take_lt by lia. done.
      * rewrite Hst'. simpl. done.
      * rewrite Hst'. done.
    + exists [], st. simpl. unfold npc_getArraySize. rewrite Ha.
      split_and!; try done.
      * do 3 f_equal. lia.
      * lia.
      * apply NoDup_nil_2.
      * intros p Hp. by apply elem_of_nil in Hp.
Qed.

Lemma npc_getNameArray_spec_witness :
  npc_getNameArray 5 init_state = Some (0, [], init_state)
  ∧ ∃ names st', npc_getNameArray 5 event_state = Some (1, names, st')
                 ∧ Z.of_nat (length names) = 1.
Proof.
  split.
  - apply (npc_getNameArray_spec 5 init_state). reflexivity.
  - destruct (proj2 (npc_getNameArray_spec 5 event_state))
      as (names & st' & Hcall & Hlen & _).
    + intros r Hr. vm_compute in Hr.
      apply list_elem_of_singleton in Hr as ->. by eexists.
    + exists names, st'. split; [exact Hcall | exact Hlen].
Defined.

(** X18. [npc_getTextureArray] returns the number of records limited by
    [n] (0 for a negative [n] or the NULL collection) and writes that many
    entries; entry [k] is the very pointer [npc_getTexture k] returns: the
    portraits are handed out, not duplicated. *)
Theorem npc_getTextureArray_spec (n : Z) (st : State) :
  fst (npc_getTextureArray n st) = Z.max 0 (Z.min n (npc_getArraySize st))
  ∧ Z.of_nat (length (snd (npc_getTextureArray n st)))
    = fst (npc_getTextureArray n st)
  ∧ ∀ k, 0 ≤ k < fst (npc_getTextureArray n st) →
      snd (npc_getTextureArray n st) !! Z.to_nat k = npc_getTexture k st
      ∧ is_Some (npc_getTexture k st).
Proof.
  unfold npc_getTextureArray.
  destruct (npc_array st) as [a |] eqn:Ha.
  - destruct (count_bound n st a Ha) as [Hc Hle].
    rewrite Ha in Hc, Hle.
    set (count := Z.to_nat (Z.min n (array_size (Some a)))) in *.
    cbn [fst snd]. rewrite length_fmap, length_take.
    split_and!; [done | lia |].
    intros k Hk.
    destruct (lookup_lt_is_Some_2 a (Z.to_nat k)) as [r Hr]; [lia |].
    unfold npc_getTexture, npc_at. rewrite Ha. simpl. rewrite Hr. simpl.
    assert ((k <? 0) || (k >=? Z.of_nat (length a)) = false) as ->.
    { apply not_true_iff_false.
      rewrite orb_true_iff, Z.ltb_lt, Z.geb_le. lia. }
    split; [| done].
    rewrite list_lookup_fmap, lookup_take_lt by lia. by rewrite Hr.
  - simpl. unfold npc_getArraySize. rewrite Ha. split_and!; [lia | done |].
    intros k Hk. lia.
Qed.

Lemma npc_getTextureArray_spec_witness :
  snd (npc_getTextureArray 4 event_state) !! Z.to_nat 0
  = npc_getTexture 0 event_state.
Proof.
  apply (npc_getTextureArray_spec 4 event_state). vm_compute.
  split; [discriminate | reflexivity].
Defined.
